(** * Keccak-256 utilities and the Merkle tree of [keccak256.cpp]

    A shallow embedding of [src/cpp/crypto-algorithms/keccak256.cpp]:
    the static helpers of [class Keccak256], [class EthereumCrypto]
    ([generatePrivateKey] and the placeholder [verifySignature]),
    [class MerkleTree] and [main].

    Conventions of the embedding.
    - [std::string] is [string]; [std::vector<T>] is [list T];
      [unsigned char] is [byte].
    - [size_t] is [N] with the wrap-around modulo [2^64] written out at every
      addition and subtraction the source performs on it.  No vector holds
      [SIZE_MAX] elements, so the results about a vector of items assume
      fewer; this is what keeps [i + 2] in [buildTree] from wrapping.
    - An element access outside a vector ([operator[]], [back()]) is
      undefined behaviour in C++; the embedding records it as the outcome
      [Undefined].
    - Loops whose trip count is decided by a run-time guard take a [fuel]
      argument and yield [OutOfFuel] when it is exhausted before the guard
      turns false.  Every result below is stated for all sufficiently large
      fuel, so it speaks about runs on which the guard ended the loop.
    - [std::cout] and [std::stringstream] are the text written so far.
    - [int] is [Z]; the source's [int] counters stay below their loop
      bounds, so no [int] operation overflows.  The bytes delivered by
      [RAND_bytes] are an argument.
    - The digest computed by OpenSSL ([EVP_sha3_256] driven through
      [EVP_DigestInit_ex], [EVP_DigestUpdate], [EVP_DigestFinal_ex]) is not
      code of this file; it is a section variable. *)

From Stdlib Require Import String Ascii NArith ZArith PeanoNat Lia Bool List.
From Stdlib Require Import HexadecimalString DecimalString.
From Stdlib.Strings Require Import Byte.
Import ListNotations.

Local Open Scope string_scope.
Local Open Scope list_scope.

(** ** Outcomes of a run *)

Inductive outcome (A : Type) : Type :=
| Done (a : A)
| Undefined
| OutOfFuel.

Arguments Done {A} a.
Arguments Undefined {A}.
Arguments OutOfFuel {A}.

Definition bind {A B : Type} (m : outcome A) (k : A -> outcome B) : outcome B :=
  match m with
  | Done a => k a
  | Undefined => Undefined
  | OutOfFuel => OutOfFuel
  end.

Notation "x <- m ;; k" := (bind m (fun x => k))
  (at level 61, m at next level, right associativity).

(** ** [size_t] arithmetic and vector accesses *)

Definition SIZE_MAX : N := 2 ^ 64 - 1.

Definition size_add (a b : N) : N := ((a + b) mod 2 ^ 64)%N.

Definition size_sub (a b : N) : N := ((a + 2 ^ 64 - b mod 2 ^ 64) mod 2 ^ 64)%N.

(** [v.size()] *)
Definition size {A : Type} (v : list A) : N := N.of_nat (length v).

(** [v[i]] *)
Definition subscript {A : Type} (v : list A) (i : N) : outcome A :=
  match nth_error v (N.to_nat i) with
  | Some a => Done a
  | None => Undefined
  end.

(** [v.back()] *)
Definition back {A : Type} (v : list A) : outcome A :=
  match v with
  | [] => Undefined
  | a :: r => Done (last r a)
  end.

(** [v.push_back(a)] *)
Definition push_back {A : Type} (v : list A) (a : A) : list A := v ++ [a].

(** ** Stream formatting *)

(** [std::endl] *)
Definition endl : string := String (ascii_of_nat 10) EmptyString.

Fixpoint fill (n : nat) (c : ascii) : string :=
  match n with
  | O => EmptyString
  | S n' => String c (fill n' c)
  end.

(** A field printed under [std::setw(w) << std::setfill(c)]: padded on the
    left up to the minimal width [w], never truncated. *)
Definition setw_setfill (w : nat) (c : ascii) (field : string) : string :=
  (fill (w - String.length field) c ++ field)%string.

(** [ss << std::hex << v] for a non-negative [int]: lowercase digits, no
    leading zero, ["0"] for zero. *)
Definition hex_of_int (v : N) : string :=
  HexadecimalString.NilZero.string_of_uint (N.to_hex_uint v).

(** [ss << i] for a [size_t] in decimal. *)
Definition dec_of_size (v : N) : string :=
  DecimalString.NilZero.string_of_uint (N.to_uint v).

(** [std::hex << std::setw(2) << std::setfill('0') << (int)byte] *)
Definition put_hex_byte (b : byte) : string :=
  setw_setfill 2 "0"%char (hex_of_int (Byte.to_N b)).

Definition is_lower_hex (c : ascii) : bool :=
  existsb (Ascii.eqb c) (list_ascii_of_string "0123456789abcdef").

Fixpoint string_forallb (p : ascii -> bool) (s : string) : bool :=
  match s with
  | EmptyString => true
  | String c r => p c && string_forallb p r
  end.

(** The text that follows the ["0x"] prefix of a digest: the two-digit
    fields of its bytes, in order. *)
Fixpoint hex_digits (bytes : list byte) : string :=
  match bytes with
  | [] => EmptyString
  | b :: r => (put_hex_byte b ++ hex_digits r)%string
  end.

(** [static std::string bytesToHex(const std::vector<unsigned char>&)] of
    [class Keccak256]; it does not call the digest. *)
Definition bytesToHex (bytes : list byte) : string :=
  fold_left (fun ss b => (ss ++ put_hex_byte b)%string) bytes "0x".

(** The state of a [MerkleTree] object: its two private members. *)
Record MerkleTree : Type := mkMerkleTree {
  leaves : list string;
  levels : list (list string)
}.

(** The members before the constructor body runs: two empty vectors. *)
Definition MerkleTree_init : MerkleTree := mkMerkleTree [] [].

(** [levels.back()[0]] of [getRoot], on the [levels] member alone. *)
Definition root_of (lvls : list (list string)) : outcome string :=
  top <- back lvls ;;
  subscript top 0%N.



(** [v[i]] with an [int] index. *)
Definition subscript_int {A : Type} (v : list A) (i : Z) : outcome A :=
  if (i <? 0)%Z then Undefined else subscript v (Z.to_N i).

(** The loop of [generatePrivateKey]:
    [for (int i = 0; i < 32; i++)
       ss << std::hex << std::setw(2) << std::setfill('0') << (int)key[i];]
    The index stays below 32, so [i++] never overflows. *)
Fixpoint generatePrivateKey_loop (fuel : nat) (key : list byte) (i : Z)
    (ss : string) : outcome string :=
  if (i <? 32)%Z then
    match fuel with
    | O => OutOfFuel
    | S fuel' =>
        b <- subscript_int key i ;;
        generatePrivateKey_loop fuel' key (i + 1)%Z (ss ++ put_hex_byte b)%string
    end
  else Done ss.

(** [EthereumCrypto::generatePrivateKey]; [key] is the content of the array
    [unsigned char key[32]] after [RAND_bytes(key, 32)]. *)
Definition generatePrivateKey (fuel : nat) (key : list byte) : outcome string :=
  generatePrivateKey_loop fuel key 0%Z "0x".

(** The strings handed to [hash] by one pass over a level (the local
    [combined] of [buildTree]), in order. *)
Fixpoint combined (level : list string) : list string :=
  match level with
  | [] => []
  | [l] => [(l ++ l)%string]
  | l :: r :: rest => (l ++ r)%string :: combined rest
  end.

(** The text written by the outer loop of [printTree] for the levels
    [lvls], the first of which has index [i]. *)
Fixpoint render_levels (i : N) (lvls : list (list string)) : string :=
  match lvls with
  | [] => EmptyString
  | level :: rest =>
      ("Level " ++ dec_of_size i ++ ":" ++ endl ++
       fold_right (fun h out => "  " ++ h ++ endl ++ out) "" level ++
       render_levels (i + 1) rest)%string
  end.

(** The text of [main]: the banner and the usage message (a raw string
    literal in the source, line breaks included). *)
Definition banner : string := "=== Ethereum Crypto Algorithms in C++ ===".

Definition usage : string :=
  (endl ++
   "Usage:" ++ endl ++
   "  ./crypto hash <message>           - Compute Keccak-256 hash" ++ endl ++
   "  ./crypto address <public_key>     - Generate Ethereum address" ++ endl ++
   "  ./crypto merkle <data1> <data2>   - Build Merkle tree" ++ endl ++
   "  ./crypto keygen                   - Generate random private key" ++ endl ++
   "        ")%string.

(** A stand-in for the digest, used to run the embedding on concrete data:
    32 bytes computed from the length and the character codes of the input. *)
Definition sample_digest (input : string) : list byte :=
  let codes := map (fun c => N.of_nat (nat_of_ascii c)) (list_ascii_of_string input) in
  let sum := fold_left N.add codes (N.of_nat (String.length input)) in
  map (fun k => match Byte.of_N ((sum * 31 + N.of_nat k * 7) mod 256) with
                | Some b => b
                | None => x00
                end) (seq 0 32).

Section Source.

(** The content of the buffer filled by OpenSSL for [input]. *)
Variable EVP_sha3_256 : string -> list byte.

(** [EVP_MD_size(EVP_sha3_256())] is 32: the buffer has 32 bytes. *)
Hypothesis EVP_MD_size_32 : forall input, length (EVP_sha3_256 input) = 32.

(** ** [class Keccak256] *)

Definition hashToBytes (input : string) : list byte := EVP_sha3_256 input.

Definition hash (input : string) : string :=
  let hash_bytes := hashToBytes input in
  bytesToHex hash_bytes.

(** The loop of [publicKeyToAddress]:
    [for (size_t i = hash.size() - 20; i < hash.size(); i++)
       ss << std::hex << std::setw(2) << std::setfill('0') << (int)hash[i];] *)
Fixpoint publicKeyToAddress_loop (fuel : nat) (hash : list byte) (i : N)
    (ss : string) : outcome string :=
  if (i <? size hash)%N then
    match fuel with
    | O => OutOfFuel
    | S fuel' =>
        b <- subscript hash i ;;
        publicKeyToAddress_loop fuel' hash (size_add i 1)
          (ss ++ put_hex_byte b)%string
    end
  else Done ss.

Definition publicKeyToAddress (fuel : nat) (publicKey : string) : outcome string :=
  let hash := hashToBytes publicKey in
  publicKeyToAddress_loop fuel hash (size_sub (size hash) 20) "0x".

(** ** [class EthereumCrypto] *)

(** [verifySignature] writes two lines to [std::cout] and returns a
    [bool]; the pair is the value returned and the stream afterwards. *)
Definition verifySignature (message signature publicKey : string)
    (cout : string) : bool * string :=
  let messageHash := hashToBytes message in
  let cout := (cout ++ "Message hash: " ++ bytesToHex messageHash ++ endl)%string in
  let cout := (cout ++ "Signature verification requires libsecp256k1" ++ endl)%string in
  (true, cout).

(** ** [class MerkleTree] *)

(** The [for] loop of [buildTree] over [currentLevel], from index [i] with
    [newLevel] built so far. *)
Fixpoint buildTree_for (fuel : nat) (currentLevel : list string) (i : N)
    (newLevel : list string) : outcome (list string) :=
  if (i <? size currentLevel)%N then
    match fuel with
    | O => OutOfFuel
    | S fuel' =>
        if (size_add i 1 <? size currentLevel)%N then
          l <- subscript currentLevel i ;;
          r <- subscript currentLevel (size_add i 1) ;;
          let combined := (l ++ r)%string in
          buildTree_for fuel' currentLevel (size_add i 2)
            (push_back newLevel (hash combined))
        else
          l <- subscript currentLevel i ;;
          r <- subscript currentLevel i ;;
          let combined := (l ++ r)%string in
          buildTree_for fuel' currentLevel (size_add i 2)
            (push_back newLevel (hash combined))
    end
  else Done newLevel.

(** The [while (levels.back().size() > 1)] loop of [buildTree]. *)
Fixpoint buildTree_while (fuel : nat) (lvls : list (list string))
    : outcome (list (list string)) :=
  currentLevel <- back lvls ;;
  if (1 <? size currentLevel)%N then
    match fuel with
    | O => OutOfFuel
    | S fuel' =>
        newLevel <- buildTree_for fuel currentLevel 0%N [] ;;
        buildTree_while fuel' (push_back lvls newLevel)
    end
  else Done lvls.

Definition buildTree (fuel : nat) (this : MerkleTree) : outcome MerkleTree :=
  let lvls := push_back (levels this) (leaves this) in
  lvls' <- buildTree_while fuel lvls ;;
  Done (mkMerkleTree (leaves this) lvls').

(** [MerkleTree(const std::vector<std::string>& data)] *)
Definition MerkleTree_new (fuel : nat) (data : list string) : outcome MerkleTree :=
  let this :=
    fold_left
      (fun this item =>
         mkMerkleTree (push_back (leaves this) (hash item)) (levels this))
      data MerkleTree_init in
  buildTree fuel this.

Definition getRoot (this : MerkleTree) : outcome string :=
  root_of (levels this).

(** The outer loop of [printTree]. *)
Fixpoint printTree_for (fuel : nat) (lvls : list (list string)) (i : N)
    (cout : string) : outcome string :=
  if (i <? size lvls)%N then
    match fuel with
    | O => OutOfFuel
    | S fuel' =>
        let cout := (cout ++ "Level " ++ dec_of_size i ++ ":" ++ endl)%string in
        level <- subscript lvls i ;;
        let cout :=
          fold_left (fun out h => (out ++ "  " ++ h ++ endl)%string) level cout in
        printTree_for fuel' lvls (size_add i 1) cout
    end
  else Done cout.

Definition printTree (fuel : nat) (this : MerkleTree) (cout : string)
    : outcome string :=
  let cout := (cout ++ endl ++ "=== Merkle Tree ===" ++ endl)%string in
  cout <- printTree_for fuel (levels this) 0%N cout ;;
  root <- getRoot this ;;
  Done (cout ++ endl ++ "Merkle Root: " ++ root ++ endl)%string.


(** ** [main] *)

(** The loop of the [merkle] branch:
    [for (int i = 2; i < argc; i++) data.push_back(argv[i]);] *)
Fixpoint main_data_loop (fuel : nat) (argv : list string) (argc : Z) (i : Z)
    (data : list string) : outcome (list string) :=
  if (i <? argc)%Z then
    match fuel with
    | O => OutOfFuel
    | S fuel' =>
        a <- subscript_int argv i ;;
        main_data_loop fuel' argv argc (i + 1)%Z (push_back data a)
    end
  else Done data.

(** [main]: [argv] holds [argv[0]] to [argv[argc - 1]], [key] is what
    [RAND_bytes] delivers should [keygen] ask for it; the result is the
    exit status and [std::cout] afterwards. *)
Definition main (fuel : nat) (key : list byte) (argv : list string)
    (cout : string) : outcome (Z * string) :=
  let argc := Z.of_nat (length argv) in
  let cout := (cout ++ banner ++ endl)%string in
  if (argc <? 2)%Z then
    Done (1%Z, cout ++ usage ++ endl)%string
  else
    command <- subscript_int argv 1 ;;
    if (command =? "hash")%string then
      if (argc <? 3)%Z then
        Done (1%Z, cout ++ "Usage: ./crypto hash <message>" ++ endl)%string
      else
        message <- subscript_int argv 2 ;;
        let hash := hash message in
        let cout := (cout ++ "Input: " ++ message ++ endl)%string in
        let cout := (cout ++ "Keccak-256: " ++ hash ++ endl)%string in
        Done (0%Z, cout)
    else if (command =? "address")%string then
      if (argc <? 3)%Z then
        Done (1%Z, cout ++ "Usage: ./crypto address <public_key>" ++ endl)%string
      else
        publicKey <- subscript_int argv 2 ;;
        address <- publicKeyToAddress fuel publicKey ;;
        let cout := (cout ++ "Public Key: " ++ publicKey ++ endl)%string in
        let cout := (cout ++ "Address: " ++ address ++ endl)%string in
        Done (0%Z, cout)
    else if (command =? "merkle")%string then
      data <- main_data_loop fuel argv argc 2%Z [] ;;
      match data with
      | [] =>
          Done (1%Z,
                cout ++ "Usage: ./crypto merkle <data1> <data2> ..." ++ endl)%string
      | _ :: _ =>
          tree <- MerkleTree_new fuel data ;;
          cout <- printTree fuel tree cout ;;
          Done (0%Z, cout)
      end
    else if (command =? "keygen")%string then
      privateKey <- generatePrivateKey fuel key ;;
      let cout := (cout ++ "Generated Private Key: " ++ privateKey ++ endl)%string in
      let cout := (cout ++ "⚠️  Keep this secret!" ++ endl)%string in
      Done (0%Z, cout)
    else
      Done (1%Z, cout ++ "Unknown command: " ++ command ++ endl)%string.


(** ** The shape of a built tree

    Two definitions used to describe what the loops of [buildTree]
    produce; [buildTree_for_run] and [buildTree_while_run] below relate
    them to the loops. *)

(** One pass over a level: adjacent elements in pairs, a last unpaired
    element with itself. *)
Fixpoint pairwise (level : list string) : list string :=
  match level with
  | [] => []
  | [l] => [hash (l ++ l)%string]
  | l :: r :: rest => hash (l ++ r)%string :: pairwise rest
  end.

(** [reduction cur rest]: [rest] is the sequence of levels appended after
    [cur], one pass at a time, as long as the newest level has more than
    one element. *)
Inductive reduction : list string -> list (list string) -> Prop :=
| reduction_stop (cur : list string) :
    length cur <= 1 -> reduction cur []
| reduction_step (cur : list string) (rest : list (list string)) :
    1 < length cur ->
    reduction (pairwise cur) rest ->
    reduction cur (pairwise cur :: rest).

(** * Properties *)

(** ** Text *)

Lemma append_assoc (a b c : string) :
  ((a ++ b) ++ c = a ++ (b ++ c))%string.
Proof. induction a as [|x a IH]; simpl; [reflexivity | now rewrite IH]. Qed.

Lemma append_length (a b : string) :
  String.length (a ++ b)%string = String.length a + String.length b.
Proof. induction a as [|x a IH]; simpl; [reflexivity | now rewrite IH]. Qed.

Lemma append_empty_r (a : string) : (a ++ "")%string = a.
Proof. induction a as [|x a IH]; simpl; [reflexivity | now rewrite IH]. Qed.

Lemma string_forallb_append (p : ascii -> bool) (a b : string) :
  string_forallb p (a ++ b)%string = string_forallb p a && string_forallb p b.
Proof.
  induction a as [|x a IH]; simpl; [reflexivity|].
  now rewrite IH, andb_assoc.
Qed.

Lemma put_hex_byte_length (b : byte) : String.length (put_hex_byte b) = 2.
Proof. destruct b; reflexivity. Qed.

Lemma put_hex_byte_lower (b : byte) :
  string_forallb is_lower_hex (put_hex_byte b) = true.
Proof. destruct b; reflexivity. Qed.

Lemma hex_digits_length (bytes : list byte) :
  String.length (hex_digits bytes) = 2 * length bytes.
Proof.
  induction bytes as [|b r IH]; simpl; [reflexivity|].
  rewrite append_length, put_hex_byte_length, IH. lia.
Qed.

Lemma hex_digits_lower (bytes : list byte) :
  string_forallb is_lower_hex (hex_digits bytes) = true.
Proof.
  induction bytes as [|b r IH]; simpl; [reflexivity|].
  now rewrite string_forallb_append, put_hex_byte_lower, IH.
Qed.

Lemma put_hex_bytes_fold (bytes : list byte) (ss : string) :
  fold_left (fun ss b => (ss ++ put_hex_byte b)%string) bytes ss
  = (ss ++ hex_digits bytes)%string.
Proof.
  revert ss; induction bytes as [|b r IH]; intros ss; simpl.
  - now rewrite append_empty_r.
  - now rewrite IH, append_assoc.
Qed.

Lemma bytesToHex_prefix (bytes : list byte) :
  bytesToHex bytes = ("0x" ++ hex_digits bytes)%string.
Proof. apply put_hex_bytes_fold. Qed.

(** ** Indices *)

Lemma size_add_small (a b : N) :
  (a + b < 2 ^ 64)%N -> size_add a b = (a + b)%N.
Proof. intros H; unfold size_add; now apply N.mod_small. Qed.

Lemma size_sub_small (a b : N) :
  (b <= a)%N -> (a < 2 ^ 64)%N -> size_sub a b = (a - b)%N.
Proof.
  intros Hb Ha; unfold size_sub.
  rewrite (N.mod_small b) by lia.
  replace (a + 2 ^ 64 - b)%N with ((a - b) + 1 * 2 ^ 64)%N by lia.
  rewrite N.Div0.mod_add. apply N.mod_small; lia.
Qed.

Lemma subscript_of_nat {A : Type} (v : list A) (i : nat) (a : A) :
  nth_error v i = Some a -> subscript v (N.of_nat i) = Done a.
Proof. intros H; unfold subscript; now rewrite Nat2N.id, H. Qed.

Lemma skipn_cons_inv {A : Type} (v : list A) (i : nat) (a : A) (r : list A) :
  skipn i v = a :: r -> nth_error v i = Some a /\ skipn (S i) v = r.
Proof.
  revert v; induction i as [|i IH]; intros [|x v] H; simpl in *;
    try discriminate.
  - now inversion H.
  - now apply IH.
Qed.

Lemma skipn_nonempty {A : Type} (v : list A) (i : nat) :
  i < length v -> exists a r, skipn i v = a :: r.
Proof.
  intros H. destruct (skipn i v) as [|a r] eqn:E; [|eauto].
  apply skipn_all_iff in E. lia.
Qed.

(** ** [publicKeyToAddress] *)

Lemma publicKeyToAddress_loop_run (fuel : nat) (hash : list byte) (i : nat)
    (ss : string) :
  (size hash < 2 ^ 64)%N ->
  length hash - i <= fuel ->
  publicKeyToAddress_loop fuel hash (N.of_nat i) ss
  = Done (ss ++ hex_digits (skipn i hash))%string.
Proof.
  intros Hsz. revert i ss.
  induction fuel as [|fuel IH]; intros i ss Hfuel; simpl;
    destruct (N.ltb_spec (N.of_nat i) (size hash)) as [Hlt|Hge];
    unfold size in *.
  - lia.
  - rewrite skipn_all2 by lia. simpl. now rewrite append_empty_r.
  - destruct (skipn_nonempty hash i) as (b & r & E); [lia|].
    destruct (skipn_cons_inv _ _ _ _ E) as [Hb Hr].
    rewrite (subscript_of_nat _ _ _ Hb). simpl.
    rewrite size_add_small by lia.
    replace (N.of_nat i + 1)%N with (N.of_nat (S i)) by lia.
    rewrite IH by lia. rewrite Hr, E. simpl.
    now rewrite append_assoc.
  - rewrite skipn_all2 by lia. simpl. now rewrite append_empty_r.
Qed.

(** C7.  For every public key and every fuel of at least 20 (the loop
    runs 20 times), [publicKeyToAddress] returns the hex text of exactly
    the last 20 bytes of the 32-byte digest of the key: the digest splits
    into a 12-byte head and a 20-byte tail, and the address is ["0x"]
    followed by the 40 lowercase hex digits of the tail. *)
Theorem publicKeyToAddress_last_20_bytes :
  forall (publicKey : string) (fuel : nat),
    20 <= fuel ->
    exists head tail : list byte,
      hashToBytes publicKey = head ++ tail /\
      length (hashToBytes publicKey) = 32 /\
      length tail = 20 /\
      publicKeyToAddress fuel publicKey = Done (bytesToHex tail) /\
      bytesToHex tail = ("0x" ++ hex_digits tail)%string /\
      String.length (hex_digits tail) = 40 /\
      string_forallb is_lower_hex (hex_digits tail) = true.
Proof.
  intros publicKey fuel Hfuel.
  pose proof (EVP_MD_size_32 publicKey) as Hlen.
  exists (firstn 12 (hashToBytes publicKey)), (skipn 12 (hashToBytes publicKey)).
  assert (Htail : length (skipn 12 (hashToBytes publicKey)) = 20).
  { rewrite length_skipn. unfold hashToBytes. rewrite Hlen. reflexivity. }
  repeat split.
  - symmetry; apply firstn_skipn.
  - exact Hlen.
  - exact Htail.
  - unfold publicKeyToAddress. cbv zeta.
    assert (Hsz : size (hashToBytes publicKey) = 32%N).
    { unfold size, hashToBytes. now rewrite Hlen. }
    rewrite Hsz. change (size_sub 32 20) with (N.of_nat 12).
    rewrite publicKeyToAddress_loop_run.
    + now rewrite bytesToHex_prefix.
    + rewrite Hsz. reflexivity.
    + unfold hashToBytes. rewrite Hlen. simpl. lia.
  - apply bytesToHex_prefix.
  - rewrite hex_digits_length, Htail. reflexivity.
  - apply hex_digits_lower.
Qed.

(** ** One pass of the [for] loop *)

Lemma pairwise_ind (P : list string -> Prop) :
  P [] ->
  (forall l, P [l]) ->
  (forall l r rest, P rest -> P (l :: r :: rest)) ->
  forall level, P level.
Proof.
  intros H0 H1 H2.
  assert (H : forall level, P level /\ forall x, P (x :: level)).
  { induction level as [|y level [IHa IHb]]; split; auto. }
  intros level; apply H.
Qed.

Lemma pairwise_length_bounds (level : list string) :
  length level <= 2 * length (pairwise level) <= length level + 1.
Proof. induction level using pairwise_ind; simpl in *; lia. Qed.

Lemma pairwise_length (level : list string) :
  length (pairwise level) = (length level + 1) / 2.
Proof.
  pose proof (pairwise_length_bounds level) as H.
  apply Nat.div_unique
    with (r := length level + 1 - 2 * length (pairwise level)); lia.
Qed.

Lemma pairwise_shrinks (level : list string) :
  1 < length level -> length (pairwise level) < length level.
Proof. pose proof (pairwise_length_bounds level); lia. Qed.

Lemma pairwise_nth_pair (level : list string) :
  forall (k : nat) (l r : string),
    nth_error level (2 * k) = Some l ->
    nth_error level (2 * k + 1) = Some r ->
    nth_error (pairwise level) k = Some (hash (l ++ r)%string).
Proof.
  induction level as [|z|x y rest IH] using pairwise_ind; intros k l r Hl Hr.
  - destruct k; discriminate.
  - destruct k as [|k]; simpl in Hr; [discriminate|].
    replace (k + S (k + 0) + 1) with (S (S (2 * k))) in Hr by lia.
    destruct k; discriminate.
  - destruct k as [|k].
    + simpl in *. now inversion Hl; inversion Hr.
    + replace (2 * S k) with (S (S (2 * k))) in Hl by lia.
      replace (2 * S k + 1) with (S (S (2 * k + 1))) in Hr by lia.
      simpl in Hl, Hr. simpl. now apply IH.
Qed.

Lemma pairwise_nth_unpaired (level : list string) :
  forall (k : nat) (l : string),
    nth_error level (2 * k) = Some l ->
    length level = 2 * k + 1 ->
    nth_error (pairwise level) k = Some (hash (l ++ l)%string).
Proof.
  induction level as [|z|x y rest IH] using pairwise_ind; intros k l Hl Hlen.
  - simpl in Hlen; lia.
  - simpl in Hlen. assert (k = 0) by lia; subst k.
    simpl in *. now inversion Hl.
  - destruct k as [|k]; [simpl in Hlen; lia|].
    replace (2 * S k) with (S (S (2 * k))) in Hl by lia.
    simpl in Hl, Hlen. simpl. apply IH; [exact Hl | lia].
Qed.

Lemma buildTree_for_unfold (fuel : nat) (currentLevel : list string) (i : N)
    (newLevel : list string) :
  buildTree_for (S fuel) currentLevel i newLevel =
  if (i <? size currentLevel)%N then
    if (size_add i 1 <? size currentLevel)%N then
      l <- subscript currentLevel i ;;
      r <- subscript currentLevel (size_add i 1) ;;
      buildTree_for fuel currentLevel (size_add i 2)
        (push_back newLevel (hash (l ++ r)%string))
    else
      l <- subscript currentLevel i ;;
      r <- subscript currentLevel i ;;
      buildTree_for fuel currentLevel (size_add i 2)
        (push_back newLevel (hash (l ++ r)%string))
  else Done newLevel.
Proof. reflexivity. Qed.

Lemma buildTree_for_exit (fuel : nat) (currentLevel : list string) (i : N)
    (newLevel : list string) :
  (size currentLevel <= i)%N ->
  buildTree_for fuel currentLevel i newLevel = Done newLevel.
Proof.
  intros H. destruct fuel; simpl;
    destruct (N.ltb_spec i (size currentLevel)); try lia; reflexivity.
Qed.

Lemma buildTree_for_run (fuel : nat) (currentLevel : list string) :
  (size currentLevel < SIZE_MAX)%N ->
  forall (i : nat) (newLevel : list string),
    length currentLevel - i <= fuel ->
    buildTree_for fuel currentLevel (N.of_nat i) newLevel
    = Done (newLevel ++ pairwise (skipn i currentLevel)).
Proof.
  intros Hsz. unfold SIZE_MAX in Hsz.
  induction fuel as [|fuel IH]; intros i newLevel Hfuel.
  - rewrite buildTree_for_exit by (unfold size; lia).
    rewrite skipn_all2 by lia. simpl. now rewrite app_nil_r.
  - destruct (Nat.le_gt_cases (length currentLevel) i) as [Hge|Hlt].
    { rewrite buildTree_for_exit by (unfold size; lia).
      rewrite skipn_all2 by lia. simpl. now rewrite app_nil_r. }
    rewrite buildTree_for_unfold.
    destruct (skipn_nonempty currentLevel i) as (l & rest & E); [lia|].
    destruct (skipn_cons_inv _ _ _ _ E) as [Hl Hrest].
    unfold size in *.
    rewrite (size_add_small _ 1), (size_add_small _ 2) by lia.
    replace (N.of_nat i + 1)%N with (N.of_nat (S i)) by lia.
    replace (N.of_nat i + 2)%N with (N.of_nat (S (S i))) by lia.
    rewrite (subscript_of_nat _ _ _ Hl).
    destruct (N.ltb_spec (N.of_nat i) (N.of_nat (length currentLevel)));
      [|lia].
    destruct (N.ltb_spec (N.of_nat (S i)) (N.of_nat (length currentLevel)))
      as [Hlt'|Hge'].
    + destruct (skipn_nonempty currentLevel (S i)) as (r & rest' & E'); [lia|].
      destruct (skipn_cons_inv _ _ _ _ E') as [Hr Hrest'].
      rewrite (subscript_of_nat _ _ _ Hr). cbn [bind].
      rewrite IH by lia. unfold push_back.
      rewrite E, <- Hrest, E', Hrest'. simpl.
      now rewrite <- app_assoc.
    + cbn [bind]. rewrite IH by lia. unfold push_back.
      rewrite (skipn_all2 (n := S (S i))) by lia.
      rewrite E, <- Hrest, (skipn_all2 (n := S i)) by lia. simpl.
      now rewrite app_nil_r.
Qed.

(** ** The [while] loop *)

Lemma back_push_back {A : Type} (v : list A) (a : A) :
  back (push_back v a) = Done a.
Proof.
  unfold push_back. destruct v as [|x v]; simpl; [reflexivity|].
  now rewrite last_last.
Qed.

Lemma buildTree_while_unfold (fuel : nat) (lvls : list (list string)) :
  buildTree_while fuel lvls =
  (currentLevel <- back lvls ;;
   if (1 <? size currentLevel)%N then
     match fuel with
     | O => OutOfFuel
     | S fuel' =>
         newLevel <- buildTree_for fuel currentLevel 0%N [] ;;
         buildTree_while fuel' (push_back lvls newLevel)
     end
   else Done lvls).
Proof. destruct fuel; reflexivity. Qed.

Lemma buildTree_while_run (fuel : nat) :
  forall (lvls : list (list string)) (cur : list string),
    back lvls = Done cur ->
    (size cur < SIZE_MAX)%N ->
    length cur <= fuel ->
    exists rest,
      buildTree_while fuel lvls = Done (lvls ++ rest) /\ reduction cur rest.
Proof.
  induction fuel as [|fuel IH]; intros lvls cur Hback Hsz Hfuel;
    rewrite buildTree_while_unfold, Hback; cbn [bind];
    destruct (N.ltb_spec 1 (size cur)) as [Hlt|Hge]; unfold size in *.
  - lia.
  - exists []. rewrite app_nil_r. split; [reflexivity|].
    apply reduction_stop; lia.
  - change 0%N with (N.of_nat 0).
    rewrite buildTree_for_run by (auto; lia).
    change (skipn 0 cur) with cur. cbn [bind app].
    pose proof (pairwise_shrinks cur ltac:(lia)) as Hshrink.
    destruct (IH (push_back lvls (pairwise cur)) (pairwise cur))
      as (rest & Hrun & Hred).
    + apply back_push_back.
    + unfold size, SIZE_MAX in *. lia.
    + lia.
    + exists (pairwise cur :: rest). split.
      * rewrite Hrun. unfold push_back. now rewrite <- app_assoc.
      * apply reduction_step; [lia | exact Hred].
  - exists []. rewrite app_nil_r. split; [reflexivity|].
    apply reduction_stop; lia.
Qed.

Lemma reduction_functional (cur : list string) (rest rest' : list (list string)) :
  reduction cur rest -> reduction cur rest' -> rest = rest'.
Proof.
  intros H; revert rest'.
  induction H as [cur Hle | cur rest Hlt Hred IH]; intros rest' H';
    inversion H'; subst; try lia; [reflexivity|].
  f_equal. now apply IH.
Qed.

Lemma reduction_adjacent (cur : list string) (rest : list (list string)) :
  reduction cur rest ->
  forall (i : nat) (a b : list string),
    nth_error (cur :: rest) i = Some a ->
    nth_error (cur :: rest) (S i) = Some b ->
    1 < length a /\ b = pairwise a.
Proof.
  induction 1 as [cur Hle | cur rest Hlt Hred IH]; intros i a b Ha Hb.
  - destruct i; discriminate.
  - destruct i as [|i].
    + simpl in Ha, Hb. inversion Ha; inversion Hb; subst. now split.
    + apply (IH i); assumption.
Qed.

Lemma reduction_continues (cur : list string) (rest : list (list string)) :
  reduction cur rest ->
  forall (i : nat) (a : list string),
    nth_error (cur :: rest) i = Some a ->
    1 < length a ->
    exists b, nth_error (cur :: rest) (S i) = Some b.
Proof.
  induction 1 as [cur Hle | cur rest Hlt Hred IH]; intros i a Ha Hlen.
  - destruct i as [|i]; simpl in Ha.
    + inversion Ha; subst; lia.
    + destruct i; discriminate.
  - destruct i as [|i].
    + simpl. eauto.
    + apply (IH i a); assumption.
Qed.

Lemma last_cons {A : Type} (rest : list A) (p d : A) :
  last (p :: rest) d = last rest p.
Proof.
  revert p d; induction rest as [|x rest IH]; intros p d; [reflexivity|].
  change (last (p :: x :: rest) d) with (last (x :: rest) d).
  now rewrite (IH x d), (IH x p).
Qed.

Lemma reduction_top (cur : list string) (rest : list (list string)) :
  reduction cur rest ->
  length (last rest cur) <= 1 /\ (cur <> [] -> length (last rest cur) = 1).
Proof.
  induction 1 as [cur Hle | cur rest Hlt Hred [IHa IHb]].
  - simpl. split; [exact Hle|]. destruct cur; [congruence | simpl in *; lia].
  - rewrite last_cons. split; [exact IHa|].
    intros _. apply IHb.
    pose proof (pairwise_length_bounds cur).
    destruct (pairwise cur); [simpl in *; lia | congruence].
Qed.

Lemma reduction_count (cur : list string) (rest : list (list string)) :
  reduction cur rest -> length rest <= length cur - 1.
Proof.
  induction 1 as [cur Hle | cur rest Hlt Hred IH]; simpl; [lia|].
  pose proof (pairwise_shrinks cur Hlt). lia.
Qed.

(** ** The constructor *)

Lemma leaves_fold (data : list string) (this : MerkleTree) :
  fold_left
    (fun this item =>
       mkMerkleTree (push_back (leaves this) (hash item)) (levels this))
    data this
  = mkMerkleTree (leaves this ++ map hash data) (levels this).
Proof.
  revert this; induction data as [|item data IH]; intros [lv ls]; simpl.
  - now rewrite app_nil_r.
  - rewrite IH. simpl. unfold push_back. now rewrite <- app_assoc.
Qed.

Lemma MerkleTree_new_run (data : list string) (fuel : nat) :
  (size data < SIZE_MAX)%N ->
  length data <= fuel ->
  exists rest,
    MerkleTree_new fuel data
    = Done (mkMerkleTree (map hash data) (map hash data :: rest)) /\
    reduction (map hash data) rest.
Proof.
  intros Hsz Hfuel. unfold MerkleTree_new. rewrite leaves_fold.
  unfold buildTree, MerkleTree_init, push_back. simpl.
  destruct (buildTree_while_run fuel [map hash data] (map hash data))
    as (rest & Hrun & Hred).
  - reflexivity.
  - unfold size in *. now rewrite length_map.
  - now rewrite length_map.
  - exists rest. rewrite Hrun. simpl. now split.
Qed.

Lemma hash_text (input : string) :
  hash input = ("0x" ++ hex_digits (EVP_sha3_256 input))%string /\
  string_forallb is_lower_hex (hex_digits (EVP_sha3_256 input)) = true.
Proof.
  split; [apply bytesToHex_prefix | apply hex_digits_lower].
Qed.

Lemma pairwise_digests (level : list string) :
  Forall (fun node => exists input, node = hash input) (pairwise level).
Proof.
  induction level using pairwise_ind; simpl; repeat constructor; eauto.
Qed.

Lemma reduction_digests (cur : list string) (rest : list (list string)) :
  reduction cur rest ->
  Forall (fun node => exists input, node = hash input) cur ->
  Forall (Forall (fun node => exists input, node = hash input)) (cur :: rest).
Proof.
  induction 1 as [cur Hle | cur rest Hlt Hred IH]; intros Hcur.
  - repeat constructor; assumption.
  - constructor; [assumption|]. apply IH, pairwise_digests.
Qed.

Lemma leaves_digests (data : list string) :
  Forall (fun node => exists input, node = hash input) (map hash data).
Proof. induction data; simpl; constructor; eauto. Qed.

(** ** The built tree *)

(** C4.  For every input sequence (shorter than [SIZE_MAX], as every
    vector is) and enough fuel, level 0 of the built tree is the [leaves]
    member, has one leaf per item, and its [i]-th leaf is [hash] of the
    [i]-th item: the digest is computed on the item itself, with nothing
    put in front of it. *)
Theorem leaf_level_hashes_items :
  forall (data : list string) (fuel : nat),
    (size data < SIZE_MAX)%N ->
    length data <= fuel ->
    exists (t : MerkleTree) (level0 : list string),
      MerkleTree_new fuel data = Done t /\
      nth_error (levels t) 0 = Some level0 /\
      leaves t = level0 /\
      level0 = map hash data /\
      length level0 = length data /\
      forall (i : nat) (item : string),
        nth_error data i = Some item ->
        nth_error level0 i = Some (hash item) /\
        hash item = bytesToHex (EVP_sha3_256 item).
Proof.
  intros data fuel Hsz Hfuel.
  destruct (MerkleTree_new_run data fuel Hsz Hfuel) as (rest & Hrun & _).
  eexists; exists (map hash data). split; [exact Hrun|]. simpl.
  repeat split; try reflexivity.
  - apply length_map.
  - now apply map_nth_error.
Qed.

(** C2.  For every input sequence and enough fuel, level 0 has the length
    of the input, each further level has the ceiling of half the length
    of the level before it, and for a non-empty input the final level has
    exactly one element. *)
Theorem level_lengths_halve :
  forall (data : list string) (fuel : nat),
    (size data < SIZE_MAX)%N ->
    length data <= fuel ->
    exists t : MerkleTree,
      MerkleTree_new fuel data = Done t /\
      (exists level0,
          nth_error (levels t) 0 = Some level0 /\
          length level0 = length data) /\
      (forall (i : nat) (a b : list string),
          nth_error (levels t) i = Some a ->
          nth_error (levels t) (S i) = Some b ->
          length b = (length a + 1) / 2 /\
          length a <= 2 * length b <= length a + 1) /\
      (data <> [] ->
       exists top, back (levels t) = Done top /\ length top = 1).
Proof.
  intros data fuel Hsz Hfuel.
  destruct (MerkleTree_new_run data fuel Hsz Hfuel) as (rest & Hrun & Hred).
  eexists. split; [exact Hrun|]. simpl. split; [|split].
  - exists (map hash data). split; [reflexivity | apply length_map].
  - intros i a b Ha Hb.
    destruct (reduction_adjacent _ _ Hred i a b Ha Hb) as [_ ->].
    split; [apply pairwise_length | apply pairwise_length_bounds].
  - intros Hne. eexists. split; [reflexivity|].
    apply (reduction_top _ _ Hred). destruct data; [congruence | discriminate].
Qed.

(** C1.  For every input sequence and enough fuel, the built tree has the
    leaf hashes of the items as its level 0, every level with at
    least two elements has a next level, and for each pair of positions
    [2k], [2k+1] of the level the node at position [k] of the next level
    is [hash] of the concatenation of the two strings stored there; these
    strings are the texts of two digests, each ["0x"] followed by
    lowercase hex digits, so the digest is taken over the hex text. *)
Theorem pair_nodes_hash_hex_text :
  forall (data : list string) (fuel : nat),
    (size data < SIZE_MAX)%N ->
    length data <= fuel ->
    exists t : MerkleTree,
      MerkleTree_new fuel data = Done t /\
      nth_error (levels t) 0 = Some (map hash data) /\
      forall (i : nat) (level : list string),
        nth_error (levels t) i = Some level ->
        2 <= length level ->
        exists next : list string,
          nth_error (levels t) (S i) = Some next /\
          forall (k : nat) (l r : string),
            nth_error level (2 * k) = Some l ->
            nth_error level (2 * k + 1) = Some r ->
            nth_error next k = Some (hash (l ++ r)%string) /\
            exists dl dr : string,
              l = ("0x" ++ hex_digits (EVP_sha3_256 dl))%string /\
              r = ("0x" ++ hex_digits (EVP_sha3_256 dr))%string /\
              string_forallb is_lower_hex (hex_digits (EVP_sha3_256 dl)) = true /\
              string_forallb is_lower_hex (hex_digits (EVP_sha3_256 dr)) = true /\
              nth_error next k =
              Some (bytesToHex
                      (EVP_sha3_256
                         (("0x" ++ hex_digits (EVP_sha3_256 dl)) ++
                          ("0x" ++ hex_digits (EVP_sha3_256 dr)))%string)).
Proof.
  intros data fuel Hsz Hfuel.
  destruct (MerkleTree_new_run data fuel Hsz Hfuel) as (rest & Hrun & Hred).
  eexists. split; [exact Hrun|]. simpl levels. split; [reflexivity|].
  intros i level Hlevel Hlen.
  destruct (reduction_continues _ _ Hred i level Hlevel) as [next Hnext]; [lia|].
  exists next. split; [exact Hnext|].
  destruct (reduction_adjacent _ _ Hred i level next Hlevel Hnext) as [_ ->].
  intros k l r Hl Hr.
  pose proof (pairwise_nth_pair level k l r Hl Hr) as Hnode.
  split; [exact Hnode|].
  pose proof (reduction_digests _ _ Hred (leaves_digests data)) as Hall.
  rewrite Forall_forall in Hall.
  pose proof (Hall level (nth_error_In _ _ Hlevel)) as Hdig.
  rewrite Forall_forall in Hdig.
  destruct (Hdig l (nth_error_In _ _ Hl)) as [dl Hdl].
  destruct (Hdig r (nth_error_In _ _ Hr)) as [dr Hdr].
  exists dl, dr.
  destruct (hash_text dl) as [El Ll], (hash_text dr) as [Er Lr].
  rewrite <- El, <- Er, <- Hdl, <- Hdr.
  repeat split; try assumption; congruence.
Qed.

(** C3.  For every input sequence and enough fuel, a level of odd length
    [2k+1] that is followed by a next level has its last element
    combined with itself: the last node of the next level is
    [hash (last ++ last)]; every level of odd length above one is
    followed by a next level.  In particular, when the input is three
    items [A], [B], [C], the levels are the three leaves, then the pair
    node of [A], [B] and the self-pair of [C], then the pair node of
    these two, which is the root. *)
Theorem odd_level_duplicates_last :
  forall (data : list string) (fuel : nat),
    (size data < SIZE_MAX)%N ->
    length data <= fuel ->
    exists t : MerkleTree,
      MerkleTree_new fuel data = Done t /\
      (forall (i k : nat) (level : list string) (last_node : string),
          nth_error (levels t) i = Some level ->
          length level = 2 * k + 1 ->
          nth_error level (2 * k) = Some last_node ->
          (1 <= k -> exists next, nth_error (levels t) (S i) = Some next) /\
          (forall next,
              nth_error (levels t) (S i) = Some next ->
              length next = k + 1 /\
              nth_error next k = Some (hash (last_node ++ last_node)%string))) /\
      (forall A B C : string,
          data = [A; B; C] ->
          let level1 :=
            [hash (hash A ++ hash B)%string; hash (hash C ++ hash C)%string] in
          let root :=
            hash (hash (hash A ++ hash B) ++ hash (hash C ++ hash C))%string in
          levels t = [[hash A; hash B; hash C]; level1; [root]] /\
          getRoot t = Done root).
Proof.
  intros data fuel Hsz Hfuel.
  destruct (MerkleTree_new_run data fuel Hsz Hfuel) as (rest & Hrun & Hred).
  eexists. split; [exact Hrun|]. simpl levels. split.
  - intros i k level last_node Hlevel Hlen Hlast. split.
    + intros Hk. apply (reduction_continues _ _ Hred i level Hlevel). lia.
    + intros next Hnext.
      destruct (reduction_adjacent _ _ Hred i level next Hlevel Hnext) as [_ ->].
      split.
      * pose proof (pairwise_length_bounds level). lia.
      * now apply pairwise_nth_unpaired.
  - intros A B C -> level1 root.
    assert (Hrest : reduction (map hash [A; B; C]) [level1; [root]]).
    { apply (reduction_step [hash A; hash B; hash C]); [simpl; lia|].
      apply (reduction_step level1); [simpl; lia|].
      apply reduction_stop. simpl; lia. }
    rewrite (reduction_functional _ _ _ Hred Hrest).
    split; reflexivity.
Qed.

(** C5.  For every input sequence the construction terminates: with any
    fuel of at least the input length it returns one and the same tree.
    The loop has stopped exactly when the newest level has at most one
    element: the final level has length 1, or is the empty leaf level of
    the empty input, every earlier level has more than one element, and
    each level is strictly shorter than the one before it, because one
    pass of the inner loop over a level of more than one element returns a
    strictly shorter level. *)
Theorem buildTree_terminates :
  forall data : list string,
    (size data < SIZE_MAX)%N ->
    exists t : MerkleTree,
      (forall fuel, length data <= fuel -> MerkleTree_new fuel data = Done t) /\
      (exists top,
          back (levels t) = Done top /\
          length top <= 1 /\
          (data <> [] -> length top = 1) /\
          (data = [] -> levels t = [[]])) /\
      (forall (i : nat) (a : list string),
          nth_error (levels t) i = Some a ->
          (1 < length a <-> S i < length (levels t))) /\
      (forall (i : nat) (a b : list string),
          nth_error (levels t) i = Some a ->
          nth_error (levels t) (S i) = Some b ->
          length b < length a) /\
      (forall (currentLevel : list string) (fuel : nat),
          (size currentLevel < SIZE_MAX)%N ->
          length currentLevel <= fuel ->
          1 < length currentLevel ->
          exists newLevel,
            buildTree_for fuel currentLevel 0%N [] = Done newLevel /\
            length newLevel < length currentLevel).
Proof.
  intros data Hsz.
  destruct (MerkleTree_new_run data (length data) Hsz (le_n _))
    as (rest & Hrun & Hred).
  eexists. split; [|split; [|split; [|split]]].
  - intros fuel Hfuel.
    destruct (MerkleTree_new_run data fuel Hsz Hfuel) as (rest' & Hrun' & Hred').
    rewrite Hrun'. now rewrite (reduction_functional _ _ _ Hred' Hred).
  - simpl. eexists. split; [reflexivity|].
    destruct (reduction_top _ _ Hred) as [Hle Hone]. repeat split.
    + exact Hle.
    + intros Hne. apply Hone. destruct data; [congruence | discriminate].
    + intros ->. simpl in Hred. inversion Hred; [reflexivity | simpl in *; lia].
  - simpl levels. intros i a Ha. split.
    + intros Hlen.
      destruct (reduction_continues _ _ Hred i a Ha Hlen) as [b Hb].
      apply nth_error_Some. congruence.
    + intros Hi.
      destruct (nth_error (map hash data :: rest) (S i)) as [b|] eqn:Hb.
      * now destruct (reduction_adjacent _ _ Hred i a b Ha Hb).
      * apply nth_error_None in Hb. lia.
  - simpl levels. intros i a b Ha Hb.
    destruct (reduction_adjacent _ _ Hred i a b Ha Hb) as [Hlen ->].
    now apply pairwise_shrinks.
  - intros currentLevel fuel Hsz' Hfuel Hlen.
    exists (pairwise currentLevel). split.
    + change 0%N with (N.of_nat 0).
      rewrite buildTree_for_run by (auto; lia). reflexivity.
    + now apply pairwise_shrinks.
Qed.

(** C6.  For every single item [A] the built tree has exactly one level,
    holding the leaf [hash A] alone, and the root is [hash A]; this holds
    with any fuel, as the reduction loop is never entered. *)
Theorem single_item_root_is_leaf :
  forall (A : string) (fuel : nat),
    MerkleTree_new fuel [A] = Done (mkMerkleTree [hash A] [[hash A]]) /\
    buildTree_while fuel [[hash A]] = Done [[hash A]] /\
    getRoot (mkMerkleTree [hash A] [[hash A]]) = Done (hash A).
Proof.
  intros A fuel. repeat split; destruct fuel; reflexivity.
Qed.

(** C9.  For every input sequence and enough fuel the tree is built.  If
    the input is non-empty, the tree has at least one level and its last
    level is non-empty, so [getRoot] reads element 0 of it in bounds and
    returns it.  If the input is empty, the tree has exactly one level,
    which is empty: [back] succeeds on it and the read of element 0 is
    out of bounds. *)
Theorem getRoot_bounds :
  forall (data : list string) (fuel : nat),
    (size data < SIZE_MAX)%N ->
    length data <= fuel ->
    exists t : MerkleTree,
      MerkleTree_new fuel data = Done t /\
      (data <> [] ->
       exists (top : list string) (root : string),
         levels t <> [] /\
         back (levels t) = Done top /\
         top <> [] /\
         subscript top 0%N = Done root /\
         getRoot t = Done root) /\
      (data = [] ->
       levels t = [[]] /\
       back (levels t) = Done [] /\
       subscript (@nil string) 0%N = Undefined /\
       getRoot t = Undefined).
Proof.
  intros data fuel Hsz Hfuel.
  destruct (MerkleTree_new_run data fuel Hsz Hfuel) as (rest & Hrun & Hred).
  eexists. split; [exact Hrun|]. simpl levels. split.
  - intros Hne.
    destruct (reduction_top _ _ Hred) as [_ Hone].
    assert (Hlen : length (last rest (map hash data)) = 1).
    { apply Hone. destruct data; [congruence | discriminate]. }
    destruct (last rest (map hash data)) as [|root top'] eqn:Etop;
      [discriminate|].
    exists (root :: top'), root. repeat split.
    + discriminate.
    + simpl. now rewrite Etop.
    + discriminate.
    + unfold getRoot, root_of. simpl. now rewrite Etop.
  - intros ->. simpl in Hred.
    inversion Hred; [|simpl in *; lia]. repeat split.
Qed.

(** C10.  For every message, signature and public key,
    [verifySignature] returns [true]; neither the value returned nor the
    text written depends on the signature or on the public key, which
    are never read. *)
Theorem verifySignature_always_true :
  forall (message signature publicKey cout : string),
    fst (verifySignature message signature publicKey cout) = true /\
    forall signature' publicKey' : string,
      verifySignature message signature' publicKey' cout
      = verifySignature message signature publicKey cout.
Proof. intros; split; reflexivity. Qed.

(** ** Calls on a constructed tree *)



(** A second run of [buildTree] on a constructed tree pushes the leaves and
    their reduction once more: [levels] ends up holding its former content
    twice. *)
Lemma buildTree_again (data : list string) (fuel : nat)
    (rest : list (list string)) :
  (size data < SIZE_MAX)%N ->
  length data <= fuel ->
  reduction (map hash data) rest ->
  buildTree fuel (mkMerkleTree (map hash data) (map hash data :: rest))
  = Done (mkMerkleTree (map hash data)
            ((map hash data :: rest) ++ (map hash data :: rest))).
Proof.
  intros Hsz Hfuel Hred. unfold buildTree. cbn [levels leaves].
  destruct (buildTree_while_run fuel
              (push_back (map hash data :: rest) (map hash data))
              (map hash data)) as (rest' & Hrun & Hred').
  - apply back_push_back.
  - unfold size in *. now rewrite length_map.
  - now rewrite length_map.
  - rewrite Hrun. cbn [bind]. unfold push_back.
    rewrite (reduction_functional _ _ _ Hred' Hred).
    now rewrite <- app_assoc.
Qed.


(** * Further properties of the code *)

(** ** Hex text *)

Lemma append_inv_length (a a' b b' : string) :
  String.length a = String.length a' ->
  (a ++ b)%string = (a' ++ b')%string ->
  a = a' /\ b = b'.
Proof.
  revert a'; induction a as [|x a IH]; intros [|x' a'] Hlen Heq;
    simpl in *; try discriminate.
  - now split.
  - inversion Heq; subst. destruct (IH a') as [-> ->]; [lia | assumption |].
    now split.
Qed.

Lemma substring_append_head (a s : string) :
  substring 0 (String.length a) (a ++ s) = a.
Proof.
  induction a as [|x a IH]; simpl; [destruct s; reflexivity|].
  now rewrite IH.
Qed.

Lemma substring_append_tail (a s : string) (n m : nat) :
  substring (String.length a + n) m (a ++ s) = substring n m s.
Proof. induction a as [|x a IH]; simpl; [reflexivity | exact IH]. Qed.

Lemma put_hex_byte_read_back (b : byte) :
  option_map N.of_hex_uint
    (HexadecimalString.NilZero.uint_of_string (put_hex_byte b))
  = Some (Byte.to_N b).
Proof. destruct b; reflexivity. Qed.

Lemma put_hex_byte_inj (b b' : byte) :
  put_hex_byte b = put_hex_byte b' -> b = b'.
Proof.
  intros H.
  pose proof (put_hex_byte_read_back b) as Hb.
  rewrite H, put_hex_byte_read_back in Hb.
  inversion Hb as [Hn].
  pose proof (Byte.of_to_N b) as E. rewrite <- Hn, Byte.of_to_N in E.
  now inversion E.
Qed.

Lemma hex_digits_inj (bytes bytes' : list byte) :
  hex_digits bytes = hex_digits bytes' -> bytes = bytes'.
Proof.
  revert bytes'; induction bytes as [|b r IH]; intros [|b' r'] H.
  - reflexivity.
  - apply (f_equal String.length) in H.
    rewrite !hex_digits_length in H. simpl in H. lia.
  - apply (f_equal String.length) in H.
    rewrite !hex_digits_length in H. simpl in H. lia.
  - simpl in H. apply append_inv_length in H.
    + destruct H as [Hb Hr]. f_equal; [now apply put_hex_byte_inj | now apply IH].
    + now rewrite !put_hex_byte_length.
Qed.

Lemma hex_digits_app (a b : list byte) :
  hex_digits (a ++ b) = (hex_digits a ++ hex_digits b)%string.
Proof.
  induction a as [|x a IH]; simpl; [reflexivity|].
  now rewrite IH, append_assoc.
Qed.

(** X1.  For every byte vector, [bytesToHex] returns ["0x"] followed by
    two lowercase hex digits per byte, in order: its length is
    [2 + 2 * size] and the text after the prefix is all lowercase hex. *)
Theorem bytesToHex_format :
  forall bytes : list byte,
    exists digits : string,
      bytesToHex bytes = ("0x" ++ digits)%string /\
      String.length digits = 2 * length bytes /\
      String.length (bytesToHex bytes) = 2 + 2 * length bytes /\
      string_forallb is_lower_hex digits = true /\
      forall (i : nat) (b : byte),
        nth_error bytes i = Some b ->
        substring (2 * i) 2 digits = put_hex_byte b.
Proof.
  intros bytes. exists (hex_digits bytes).
  split; [apply bytesToHex_prefix|]. split; [apply hex_digits_length|].
  split; [rewrite bytesToHex_prefix; simpl; now rewrite hex_digits_length|].
  split; [apply hex_digits_lower|].
  induction bytes as [|x r IH]; intros i b Hb.
  - destruct i; discriminate.
  - simpl hex_digits. destruct i as [|i].
    + inversion Hb; subst.
      pose proof (substring_append_head (put_hex_byte b) (hex_digits r)) as H.
      now rewrite put_hex_byte_length in H.
    + pose proof (substring_append_tail (put_hex_byte x) (hex_digits r)
                    (2 * i) 2) as H.
      rewrite put_hex_byte_length in H.
      replace (2 * S i) with (2 + 2 * i) by lia.
      rewrite H. now apply IH.
Qed.

(** X2.  [bytesToHex] loses nothing: two byte vectors with the same hex
    text are the same vector. *)
Theorem bytesToHex_injective :
  forall bytes bytes' : list byte,
    bytesToHex bytes = bytesToHex bytes' -> bytes = bytes'.
Proof.
  intros bytes bytes' H. rewrite !bytesToHex_prefix in H.
  apply hex_digits_inj. now inversion H.
Qed.

Lemma hash_length (input : string) : String.length (hash input) = 66.
Proof.
  unfold hash, hashToBytes. rewrite bytesToHex_prefix. simpl.
  now rewrite hex_digits_length, EVP_MD_size_32.
Qed.

(** X3.  With the 32-byte digest, every node stored in any level of a
    built tree is a 66-character text: ["0x"] followed by the 64 lowercase
    hex digits of the digest of some string. *)
Theorem tree_nodes_are_digest_texts :
  forall (data : list string) (fuel : nat),
    (size data < SIZE_MAX)%N ->
    length data <= fuel ->
    exists t : MerkleTree,
      MerkleTree_new fuel data = Done t /\
      forall (level : list string) (node : string),
        In level (levels t) ->
        In node level ->
        String.length node = 66 /\
        exists input : string,
          node = ("0x" ++ hex_digits (EVP_sha3_256 input))%string /\
          String.length (hex_digits (EVP_sha3_256 input)) = 64 /\
          string_forallb is_lower_hex (hex_digits (EVP_sha3_256 input)) = true.
Proof.
  intros data fuel Hsz Hfuel.
  destruct (MerkleTree_new_run data fuel Hsz Hfuel) as (rest & Hrun & Hred).
  eexists. split; [exact Hrun|]. cbn [levels].
  intros level node Hlevel Hnode.
  pose proof (reduction_digests _ _ Hred (leaves_digests data)) as Hall.
  rewrite Forall_forall in Hall. specialize (Hall level Hlevel).
  rewrite Forall_forall in Hall. destruct (Hall node Hnode) as [input ->].
  split; [apply hash_length|]. exists input.
  destruct (hash_text input) as [E L].
  split; [exact E|]. split; [|exact L].
  now rewrite hex_digits_length, EVP_MD_size_32.
Qed.

(** ** Addresses and keys *)

Lemma publicKeyToAddress_loop_exit (fuel : nat) (hash : list byte) (i : N)
    (ss : string) :
  (size hash <= i)%N -> publicKeyToAddress_loop fuel hash i ss = Done ss.
Proof.
  intros H. destruct fuel; simpl;
    destruct (N.ltb_spec i (size hash)); try lia; reflexivity.
Qed.

(** X4.  [publicKeyToAddress] never reads outside the digest, whatever
    its size: with a digest of at least 20 bytes it returns the hex text
    of the last 20 bytes; with a shorter digest the start index
    [hash.size() - 20] wraps around, the loop body is never run and the
    result is the bare prefix ["0x"]. *)
Theorem publicKeyToAddress_any_digest_size :
  forall (publicKey : string) (fuel : nat),
    (size (hashToBytes publicKey) < 2 ^ 64)%N ->
    20 <= fuel ->
    let digest := hashToBytes publicKey in
    (20 <= length digest ->
     publicKeyToAddress fuel publicKey
     = Done (bytesToHex (skipn (length digest - 20) digest)) /\
     length (skipn (length digest - 20) digest) = 20) /\
    (length digest < 20 ->
     publicKeyToAddress fuel publicKey = Done "0x").
Proof.
  intros publicKey fuel Hsz Hfuel digest. unfold publicKeyToAddress.
  fold digest. fold digest in Hsz. unfold size in *. split.
  - intros Hlen.
    rewrite size_sub_small by lia.
    replace (N.of_nat (length digest) - 20)%N
      with (N.of_nat (length digest - 20)) by lia.
    rewrite publicKeyToAddress_loop_run by (unfold size; lia).
    rewrite bytesToHex_prefix. split; [reflexivity|].
    rewrite length_skipn. lia.
  - intros Hlen.
    assert (E : size_sub (N.of_nat (length digest)) 20
                = (N.of_nat (length digest) + 2 ^ 64 - 20)%N).
    { unfold size_sub. rewrite (N.mod_small 20) by lia.
      apply N.mod_small. lia. }
    rewrite E. apply publicKeyToAddress_loop_exit. unfold size. lia.
Qed.

(** X5.  With the 32-byte digest, the address of a key is the tail of its
    hash text: [hash] of the key is ["0x"], then 24 hex digits, then the
    40 hex digits that follow ["0x"] in the address. *)
Theorem address_is_tail_of_hash :
  forall (publicKey : string) (fuel : nat),
    20 <= fuel ->
    exists head tail : string,
      hash publicKey = ("0x" ++ head ++ tail)%string /\
      publicKeyToAddress fuel publicKey = Done ("0x" ++ tail)%string /\
      String.length head = 24 /\
      String.length tail = 40.
Proof.
  intros publicKey fuel Hfuel.
  pose proof (EVP_MD_size_32 publicKey) as Hlen.
  exists (hex_digits (firstn 12 (hashToBytes publicKey))),
         (hex_digits (skipn 12 (hashToBytes publicKey))).
  split; [|split; [|split]].
  - unfold hash. rewrite bytesToHex_prefix, <- hex_digits_app.
    now rewrite firstn_skipn.
  - unfold publicKeyToAddress.
    assert (Hsz : size (hashToBytes publicKey) = 32%N).
    { unfold size, hashToBytes. now rewrite Hlen. }
    rewrite Hsz. change (size_sub 32 20) with (N.of_nat 12).
    rewrite publicKeyToAddress_loop_run; [reflexivity | |].
    + rewrite Hsz. reflexivity.
    + unfold hashToBytes. rewrite Hlen. simpl. lia.
  - rewrite hex_digits_length, length_firstn. unfold hashToBytes.
    rewrite Hlen. reflexivity.
  - rewrite hex_digits_length, length_skipn. unfold hashToBytes.
    rewrite Hlen. reflexivity.
Qed.

Lemma subscript_int_of_nat {A : Type} (v : list A) (i : nat) (a : A) :
  nth_error v i = Some a -> subscript_int v (Z.of_nat i) = Done a.
Proof.
  intros H. unfold subscript_int.
  destruct (Z.ltb_spec (Z.of_nat i) 0); [lia|].
  unfold subscript.
  replace (N.to_nat (Z.to_N (Z.of_nat i))) with i by lia.
  now rewrite H.
Qed.

Lemma generatePrivateKey_loop_run (fuel : nat) (key : list byte) :
  length key = 32 ->
  forall (i : nat) (ss : string),
    32 - i <= fuel ->
    generatePrivateKey_loop fuel key (Z.of_nat i) ss
    = Done (ss ++ hex_digits (skipn i key))%string.
Proof.
  intros Hkey.
  induction fuel as [|fuel IH]; intros i ss Hfuel; simpl;
    destruct (Z.ltb_spec (Z.of_nat i) 32) as [Hlt|Hge].
  - lia.
  - rewrite skipn_all2 by lia. simpl. now rewrite append_empty_r.
  - destruct (skipn_nonempty key i) as (b & r & E); [lia|].
    destruct (skipn_cons_inv _ _ _ _ E) as [Hb Hr].
    rewrite (subscript_int_of_nat _ _ _ Hb). cbn [bind].
    replace (Z.of_nat i + 1)%Z with (Z.of_nat (S i)) by lia.
    rewrite IH by lia. rewrite Hr, E. simpl. now rewrite append_assoc.
  - rewrite skipn_all2 by lia. simpl. now rewrite append_empty_r.
Qed.

(** X6.  For every content of the 32-byte key array and fuel for its 32
    iterations, [generatePrivateKey] returns the 66-character hex text of
    the whole array, and different arrays give different texts. *)
Theorem generatePrivateKey_format :
  forall (key : list byte) (fuel : nat),
    length key = 32 ->
    32 <= fuel ->
    generatePrivateKey fuel key = Done (bytesToHex key) /\
    String.length (bytesToHex key) = 66 /\
    forall key' : list byte,
      length key' = 32 ->
      generatePrivateKey fuel key' = generatePrivateKey fuel key ->
      key' = key.
Proof.
  intros key fuel Hkey Hfuel.
  assert (Hrun : forall k, length k = 32 ->
                           generatePrivateKey fuel k = Done (bytesToHex k)).
  { intros k Hk. unfold generatePrivateKey. change 0%Z with (Z.of_nat 0).
    rewrite generatePrivateKey_loop_run by (auto; lia).
    now rewrite bytesToHex_prefix. }
  split; [now apply Hrun|]. split.
  - rewrite bytesToHex_prefix. simpl. now rewrite hex_digits_length, Hkey.
  - intros key' Hkey' Heq. rewrite !Hrun in Heq by assumption.
    inversion Heq. now apply bytesToHex_injective.
Qed.

(** ** Size of the tree *)

Lemma pairwise_nonempty (level : list string) :
  level <> [] -> 1 <= length (pairwise level).
Proof.
  intros H. pose proof (pairwise_length_bounds level).
  destruct level; [congruence | simpl in *; lia].
Qed.

Lemma reduction_height (cur : list string) (rest : list (list string)) :
  reduction cur rest -> length rest = Nat.log2_up (length cur).
Proof.
  induction 1 as [cur Hle | cur rest Hlt Hred IH].
  - simpl. symmetry. now apply Nat.log2_up_eqn0.
  - simpl. rewrite IH.
    pose proof (pairwise_length_bounds cur) as Hb.
    set (p := length (pairwise cur)) in *. set (n := length cur) in *.
    assert (Hp : 1 <= p) by lia.
    apply Nat.le_antisymm.
    + apply Nat.log2_up_lt_pow2; [lia|].
      destruct (Nat.eq_dec p 1) as [E|E].
      * rewrite E. simpl. lia.
      * assert (Hr : 0 < Nat.log2_up p) by (apply Nat.log2_up_pos; lia).
        assert (Hlow : 2 ^ (Nat.log2_up p - 1) < p)
          by (apply Nat.log2_up_lt_pow2; lia).
        replace (Nat.log2_up p) with (S (Nat.log2_up p - 1)) by lia.
        rewrite Nat.pow_succ_r'. lia.
    + apply Nat.log2_up_le_pow2; [lia|].
      assert (Hup : p <= 2 ^ Nat.log2_up p)
        by (apply Nat.log2_up_le_pow2; lia).
      rewrite Nat.pow_succ_r'. lia.
Qed.

(** X7.  For every input sequence the built tree has
    [1 + ceil(log2 n)] levels, [n] the number of items (one level for the
    empty input and for a single item). *)
Theorem level_count_is_logarithmic :
  forall (data : list string) (fuel : nat),
    (size data < SIZE_MAX)%N ->
    length data <= fuel ->
    exists t : MerkleTree,
      MerkleTree_new fuel data = Done t /\
      length (levels t) = 1 + Nat.log2_up (length data).
Proof.
  intros data fuel Hsz Hfuel.
  destruct (MerkleTree_new_run data fuel Hsz Hfuel) as (rest & Hrun & Hred).
  eexists. split; [exact Hrun|]. cbn [levels]. simpl length.
  now rewrite (reduction_height _ _ Hred), length_map.
Qed.

Lemma reduction_total (cur : list string) (rest : list (list string)) :
  reduction cur rest ->
  list_sum (map (@length string) (cur :: rest)) <= 2 * length cur + length rest.
Proof.
  induction 1 as [cur Hle | cur rest Hlt Hred IH].
  - simpl. lia.
  - pose proof (pairwise_length_bounds cur) as Hb.
    change (list_sum (map (@length string) (cur :: pairwise cur :: rest)))
      with (length cur
            + list_sum (map (@length string) (pairwise cur :: rest))).
    simpl length. lia.
Qed.

(** X8.  The built tree stores a linear number of nodes: the lengths of
    all levels add up to at most [2 n + ceil(log2 n)] for [n] items.  Each
    stored node is the result of one call of [hash]. *)
Theorem stored_nodes_are_linear :
  forall (data : list string) (fuel : nat),
    (size data < SIZE_MAX)%N ->
    length data <= fuel ->
    exists t : MerkleTree,
      MerkleTree_new fuel data = Done t /\
      list_sum (map (@length string) (levels t))
      <= 2 * length data + Nat.log2_up (length data).
Proof.
  intros data fuel Hsz Hfuel.
  destruct (MerkleTree_new_run data fuel Hsz Hfuel) as (rest & Hrun & Hred).
  eexists. split; [exact Hrun|]. cbn [levels].
  pose proof (reduction_total _ _ Hred) as Htot.
  rewrite (reduction_height _ _ Hred), length_map in Htot. exact Htot.
Qed.

(** ** Inputs with the same root *)

Lemma pairwise_app_even (a b : list string) (k : nat) :
  length a = 2 * k -> pairwise (a ++ b) = pairwise a ++ pairwise b.
Proof.
  revert k; induction a as [|z|l r rest IH] using pairwise_ind; intros k Hk.
  - reflexivity.
  - simpl in Hk. lia.
  - simpl in Hk. simpl. f_equal. apply (IH (k - 1)). lia.
Qed.

Lemma root_of_step (l0 p : list string) (rest : list (list string)) :
  root_of (l0 :: p :: rest) = root_of (p :: rest).
Proof. unfold root_of, back. now rewrite last_cons. Qed.

(** X9.  Repeating the last item of an odd-length input does not change
    the root: for an input of [2k+1] items with [k >= 1], the tree over
    the items and the tree over the items followed by a second copy of the
    last one have the same levels above the leaves and the same root. *)
Theorem repeated_last_item_same_root :
  forall (data : list string) (x : string) (k fuel : nat),
    length data = 2 * k ->
    1 <= k ->
    (size (data ++ [x; x]) < SIZE_MAX)%N ->
    length (data ++ [x; x]) <= fuel ->
    exists t t' : MerkleTree,
      MerkleTree_new fuel (data ++ [x]) = Done t /\
      MerkleTree_new fuel (data ++ [x; x]) = Done t' /\
      length (leaves t') = S (length (leaves t)) /\
      tl (levels t) = tl (levels t') /\
      getRoot t = getRoot t'.
Proof.
  intros data x k fuel Hlen Hk Hsz Hfuel.
  unfold size in Hsz. rewrite length_app in Hsz, Hfuel. simpl in Hsz, Hfuel.
  destruct (MerkleTree_new_run (data ++ [x]) fuel) as (rest & Hrun & Hred).
  { unfold size. rewrite length_app. simpl. lia. }
  { rewrite length_app. simpl. lia. }
  destruct (MerkleTree_new_run (data ++ [x; x]) fuel) as (rest' & Hrun' & Hred').
  { unfold size. rewrite length_app. simpl. lia. }
  { rewrite length_app. simpl. lia. }
  assert (Hp : pairwise (map hash (data ++ [x]))
               = pairwise (map hash (data ++ [x; x]))).
  { rewrite !map_app.
    rewrite !(pairwise_app_even (map hash data) _ k) by now rewrite length_map.
    reflexivity. }
  assert (Hrest : rest = rest').
  { inversion Hred as [c Hc | c r1 Hc Hr1];
      [rewrite length_map, length_app in Hc; simpl in Hc; lia|].
    inversion Hred' as [c' Hc' | c' r2 Hc' Hr2];
      [rewrite length_map, length_app in Hc'; simpl in Hc'; lia|].
    subst. rewrite Hp in *. f_equal.
    exact (reduction_functional _ _ _ Hr1 Hr2). }
  subst rest'.
  eexists; eexists. split; [exact Hrun|]. split; [exact Hrun'|].
  cbn [leaves levels tl]. split; [|split; [reflexivity|]].
  - rewrite !length_map, !length_app. simpl. lia.
  - unfold getRoot. cbn [levels].
    inversion Hred as [c Hc | c r1 Hc Hr1];
      [rewrite length_map, length_app in Hc; simpl in Hc; lia|].
    now rewrite !root_of_step.
Qed.

Lemma pairwise_combined (level : list string) :
  pairwise level = map hash (combined level).
Proof. induction level using pairwise_ind; simpl; congruence. Qed.

Lemma combined_length (level : list string) :
  length (combined level) = length (pairwise level).
Proof. now rewrite pairwise_combined, length_map. Qed.

(** X10.  Leaves and inner nodes are not told apart: for an input of at
    least two items, the list of strings that the first pass hands to
    [hash] (the concatenated hex texts of the leaf pairs) is itself an
    input whose tree is the given tree without its leaf level, with the
    same root. *)
Theorem inner_level_as_leaves :
  forall (data : list string) (fuel : nat),
    2 <= length data ->
    (size data < SIZE_MAX)%N ->
    length data <= fuel ->
    exists t t' : MerkleTree,
      MerkleTree_new fuel data = Done t /\
      MerkleTree_new fuel (combined (leaves t)) = Done t' /\
      length (combined (leaves t)) < length data /\
      levels t' = tl (levels t) /\
      getRoot t' = getRoot t.
Proof.
  intros data fuel Hlen Hsz Hfuel.
  destruct (MerkleTree_new_run data fuel Hsz Hfuel) as (rest & Hrun & Hred).
  pose proof (pairwise_shrinks (map hash data)) as Hshrink.
  rewrite length_map in Hshrink. specialize (Hshrink ltac:(lia)).
  destruct (MerkleTree_new_run (combined (map hash data)) fuel)
    as (rest' & Hrun' & Hred').
  { unfold size in *. rewrite combined_length. unfold SIZE_MAX in *. lia. }
  { rewrite combined_length. lia. }
  rewrite <- pairwise_combined in Hrun', Hred'.
  inversion Hred as [c Hc | c r1 Hc Hr1]; [rewrite length_map in Hc; lia|].
  subst. rewrite (reduction_functional _ _ _ Hred' Hr1) in Hrun'.
  eexists; eexists. split; [exact Hrun|]. cbn [leaves].
  split; [exact Hrun'|]. cbn [levels tl].
  split; [now rewrite combined_length|]. split; [reflexivity|].
  unfold getRoot. cbn [levels]. now rewrite root_of_step.
Qed.

(** X11.  [buildTree] is not idempotent: the constructed tree has at least
    one level, and [buildTree] run once more on it keeps [leaves] but
    returns a different object, whose [levels] holds the former content
    twice in a row. *)
Theorem buildTree_twice_repeats_levels :
  forall (data : list string) (fuel : nat),
    (size data < SIZE_MAX)%N ->
    length data <= fuel ->
    exists t t' : MerkleTree,
      MerkleTree_new fuel data = Done t /\
      buildTree fuel t = Done t' /\
      nth_error (levels t) 0 = Some (map hash data) /\
      1 <= length (levels t) /\
      leaves t' = leaves t /\
      levels t' = levels t ++ levels t /\
      length (levels t') = 2 * length (levels t) /\
      levels t' <> levels t /\
      t' <> t.
Proof.
  intros data fuel Hsz Hfuel.
  destruct (MerkleTree_new_run data fuel Hsz Hfuel) as (rest & Hrun & Hred).
  eexists; eexists. split; [exact Hrun|].
  split; [exact (buildTree_again data fuel rest Hsz Hfuel Hred)|].
  cbn [leaves levels].
  assert (Hneq : (map hash data :: rest) ++ map hash data :: rest
                 <> map hash data :: rest).
  { intros E. apply (f_equal (@length (list string))) in E.
    rewrite length_app in E. simpl in E. lia. }
  split; [reflexivity|]. split; [simpl; lia|].
  split; [reflexivity|]. split; [reflexivity|].
  split; [rewrite length_app; lia|]. split; [exact Hneq|].
  intros E. apply Hneq. exact (f_equal levels E).
Qed.

(** ** Equal roots and digest collisions *)






(** ** [printTree] *)

Lemma print_level_fold (level : list string) (cout : string) :
  fold_left (fun out h => (out ++ "  " ++ h ++ endl)%string) level cout
  = (cout ++ fold_right (fun h out => "  " ++ h ++ endl ++ out) "" level)%string.
Proof.
  revert cout; induction level as [|h level IH]; intros cout; simpl.
  - now rewrite append_empty_r.
  - rewrite IH, append_assoc. simpl. now rewrite ?append_assoc.
Qed.

Lemma printTree_for_text (fuel : nat) (lvls : list (list string)) :
  (size lvls < 2 ^ 64)%N ->
  forall (i : nat) (cout : string),
    length lvls - i <= fuel ->
    printTree_for fuel lvls (N.of_nat i) cout
    = Done (cout ++ render_levels (N.of_nat i) (skipn i lvls))%string.
Proof.
  intros Hsz. unfold size in Hsz.
  induction fuel as [|fuel IH]; intros i cout Hfuel; simpl;
    destruct (N.ltb_spec (N.of_nat i) (size lvls)) as [Hlt|Hge];
    unfold size in *; try lia.
  - rewrite skipn_all2 by lia. simpl. now rewrite append_empty_r.
  - destruct (skipn_nonempty lvls i) as (level & rest & E); [lia|].
    destruct (skipn_cons_inv _ _ _ _ E) as [Hl Hr].
    rewrite (subscript_of_nat _ _ _ Hl). cbn [bind].
    rewrite size_add_small by lia.
    replace (N.of_nat i + 1)%N with (N.of_nat (S i)) by lia.
    rewrite IH by lia. rewrite Hr, E. cbn [render_levels].
    replace (N.of_nat i + 1)%N with (N.of_nat (S i)) by lia.
    rewrite print_level_fold. f_equal.
    rewrite ?append_assoc. simpl. now rewrite ?append_assoc.
  - rewrite skipn_all2 by lia. simpl. now rewrite append_empty_r.
Qed.

Lemma printTree_text (fuel : nat) (this : MerkleTree) (cout : string) :
  (size (levels this) < 2 ^ 64)%N ->
  length (levels this) <= fuel ->
  printTree fuel this cout =
  (root <- getRoot this ;;
   Done (cout ++ endl ++ "=== Merkle Tree ===" ++ endl ++
         render_levels 0 (levels this) ++
         endl ++ "Merkle Root: " ++ root ++ endl)%string).
Proof.
  intros Hsz Hfuel. unfold printTree.
  change 0%N with (N.of_nat 0).
  rewrite printTree_for_text by (auto; lia). cbn [bind skipn].
  destruct (getRoot this); cbn [bind]; try reflexivity.
  f_equal. rewrite ?append_assoc. simpl. now rewrite ?append_assoc.
Qed.

(** X13.  For a non-empty input, [printTree] on the built tree appends to
    the stream a blank line and the title, then for each level in order
    the line ["Level i:"] followed by one line per node, indented by two
    spaces, then a blank line and ["Merkle Root: "] with the value of
    [getRoot]; what was on the stream before stays in front. *)
Theorem printTree_lists_levels_then_root :
  forall (data : list string) (fuel : nat),
    data <> [] ->
    (size data < SIZE_MAX)%N ->
    length data <= fuel ->
    exists (t : MerkleTree) (root : string),
      MerkleTree_new fuel data = Done t /\
      getRoot t = Done root /\
      forall cout : string,
        printTree fuel t cout
        = Done (cout ++ endl ++ "=== Merkle Tree ===" ++ endl ++
                render_levels 0 (levels t) ++
                endl ++ "Merkle Root: " ++ root ++ endl)%string.
Proof.
  intros data fuel Hne Hsz Hfuel.
  destruct (MerkleTree_new_run data fuel Hsz Hfuel) as (rest & Hrun & Hred).
  destruct (reduction_top _ _ Hred) as [_ Hone].
  assert (Hlen : length (last rest (map hash data)) = 1).
  { apply Hone. destruct data; [congruence | discriminate]. }
  destruct (last rest (map hash data)) as [|root top'] eqn:Etop;
    [discriminate|].
  assert (Hroot : getRoot (mkMerkleTree (map hash data) (map hash data :: rest))
                  = Done root).
  { unfold getRoot, root_of. cbn [levels back bind]. now rewrite Etop. }
  eexists; exists root. split; [exact Hrun|]. split; [exact Hroot|].
  intros cout.
  pose proof (reduction_count _ _ Hred) as Hcount.
  rewrite length_map in Hcount.
  assert (Hdata : 1 <= length data)
    by (destruct data; [congruence | simpl; lia]).
  rewrite printTree_text.
  - now rewrite Hroot.
  - cbn [levels]. unfold size, SIZE_MAX in *. simpl length. lia.
  - cbn [levels]. simpl length. lia.
Qed.

(** ** [main] *)

Lemma main_data_loop_run (fuel : nat) (argv : list string) :
  forall (i : nat) (data : list string),
    length argv - i <= fuel ->
    main_data_loop fuel argv (Z.of_nat (length argv)) (Z.of_nat i) data
    = Done (data ++ skipn i argv).
Proof.
  induction fuel as [|fuel IH]; intros i data Hfuel; simpl;
    destruct (Z.ltb_spec (Z.of_nat i) (Z.of_nat (length argv))) as [Hlt|Hge];
    try lia.
  - rewrite skipn_all2 by lia. now rewrite app_nil_r.
  - destruct (skipn_nonempty argv i) as (a & r & E); [lia|].
    destruct (skipn_cons_inv _ _ _ _ E) as [Ha Hr].
    rewrite (subscript_int_of_nat _ _ _ Ha). cbn [bind].
    replace (Z.of_nat i + 1)%Z with (Z.of_nat (S i)) by lia.
    rewrite IH by lia. unfold push_back. rewrite Hr, E.
    now rewrite <- app_assoc.
  - rewrite skipn_all2 by lia. now rewrite app_nil_r.
Qed.

Lemma address_text (publicKey : string) (fuel : nat) :
  20 <= fuel ->
  exists address : string, publicKeyToAddress fuel publicKey = Done address.
Proof.
  intros Hfuel. pose proof (EVP_MD_size_32 publicKey) as Hlen.
  unfold publicKeyToAddress.
  assert (Hsz : size (hashToBytes publicKey) = 32%N).
  { unfold size, hashToBytes. now rewrite Hlen. }
  rewrite Hsz. change (size_sub 32 20) with (N.of_nat 12).
  rewrite publicKeyToAddress_loop_run; [eauto | |].
  - rewrite Hsz. reflexivity.
  - unfold hashToBytes. rewrite Hlen. simpl. lia.
Qed.

Lemma main_without_command (fuel : nat) (key : list byte) (argv : list string)
    (cout : string) :
  length argv < 2 ->
  main fuel key argv cout
  = Done (1%Z, ((cout ++ banner ++ endl) ++ usage ++ endl)%string).
Proof.
  intros H. unfold main.
  destruct (Z.ltb_spec (Z.of_nat (length argv)) 2); [reflexivity | lia].
Qed.

Lemma main_command (fuel : nat) (key : list byte) (a0 command : string)
    (args : list string) (cout : string) :
  main fuel key (a0 :: command :: args) cout =
  let argv := a0 :: command :: args in
  let cout := (cout ++ banner ++ endl)%string in
  if (command =? "hash")%string then
    match args with
    | [] => Done (1%Z, cout ++ "Usage: ./crypto hash <message>" ++ endl)%string
    | message :: _ =>
        Done (0%Z,
              (cout ++ "Input: " ++ message ++ endl) ++
              "Keccak-256: " ++ hash message ++ endl)%string
    end
  else if (command =? "address")%string then
    match args with
    | [] =>
        Done (1%Z, cout ++ "Usage: ./crypto address <public_key>" ++ endl)%string
    | publicKey :: _ =>
        address <- publicKeyToAddress fuel publicKey ;;
        Done (0%Z,
              (cout ++ "Public Key: " ++ publicKey ++ endl) ++
              "Address: " ++ address ++ endl)%string
    end
  else if (command =? "merkle")%string then
    data <- main_data_loop fuel argv (Z.of_nat (length argv)) 2%Z [] ;;
    match data with
    | [] =>
        Done (1%Z,
              cout ++ "Usage: ./crypto merkle <data1> <data2> ..." ++ endl)%string
    | _ :: _ =>
        tree <- MerkleTree_new fuel data ;;
        cout <- printTree fuel tree cout ;;
        Done (0%Z, cout)
    end
  else if (command =? "keygen")%string then
    privateKey <- generatePrivateKey fuel key ;;
    Done (0%Z,
          (cout ++ "Generated Private Key: " ++ privateKey ++ endl) ++
          "⚠️  Keep this secret!" ++ endl)%string
  else
    Done (1%Z, cout ++ "Unknown command: " ++ command ++ endl)%string.
Proof.
  unfold main. cbv zeta.
  destruct (Z.ltb_spec (Z.of_nat (length (a0 :: command :: args))) 2)
    as [H|H]; [simpl in H; lia|].
  change (subscript_int (a0 :: command :: args) 1) with (Done command).
  cbn [bind].
  destruct args as [|x args].
  - repeat (destruct (_ =? _)%string; try reflexivity).
  - destruct (Z.ltb_spec (Z.of_nat (length (a0 :: command :: x :: args))) 3)
      as [H3|H3]; [simpl in H3; lia|].
    change (subscript_int (a0 :: command :: x :: args) 2) with (Done x).
    cbn [bind].
    repeat (destruct (_ =? _)%string; try reflexivity).
Qed.

Lemma tree_prints (data : list string) (fuel : nat) (cout : string) :
  data <> [] ->
  (size data < SIZE_MAX)%N ->
  length data <= fuel ->
  exists (t : MerkleTree) (out : string),
    MerkleTree_new fuel data = Done t /\
    printTree fuel t cout = Done (cout ++ out)%string.
Proof.
  intros Hne Hsz Hfuel.
  destruct (MerkleTree_new_run data fuel Hsz Hfuel) as (rest & Hrun & Hred).
  destruct (reduction_top _ _ Hred) as [_ Hone].
  assert (Hlen : length (last rest (map hash data)) = 1).
  { apply Hone. destruct data; [congruence | discriminate]. }
  destruct (last rest (map hash data)) as [|root top'] eqn:Etop;
    [discriminate|].
  pose proof (reduction_count _ _ Hred) as Hcount.
  rewrite length_map in Hcount.
  assert (Hdata : 1 <= length data)
    by (destruct data; [congruence | simpl; lia]).
  eexists; eexists. split; [exact Hrun|].
  rewrite printTree_text.
  - unfold getRoot, root_of. cbn [levels back bind]. rewrite Etop.
    cbn [bind subscript nth_error N.to_nat]. reflexivity.
  - cbn [levels]. unfold size, SIZE_MAX in *. simpl length. lia.
  - cbn [levels]. simpl length. lia.
Qed.

(** X14.  For every argument vector (of at most [INT_MAX] entries), every
    content of the key array and enough fuel, [main] returns: no element
    access is out of range on any path.  The banner is written first.  The
    exit status is 0 or 1, and it is 1 exactly when there is no command,
    when [hash], [address] or [merkle] comes without an argument, or when
    the command is none of [hash], [address], [merkle], [keygen]. *)
Theorem main_exit_status :
  forall (argv : list string) (key : list byte) (fuel : nat) (cout : string),
    length key = 32 ->
    (Z.of_nat (length argv) <= 2 ^ 31 - 1)%Z ->
    32 <= fuel ->
    length argv <= fuel ->
    exists (status : Z) (text : string),
      main fuel key argv cout
      = Done (status, ((cout ++ banner ++ endl) ++ text)%string) /\
      (status = 0%Z \/ status = 1%Z) /\
      (status = 1%Z <->
       length argv < 2 \/
       exists command : string,
         nth_error argv 1 = Some command /\
         (length argv < 3 /\
          (command = "hash" \/ command = "address" \/ command = "merkle") \/
          command <> "hash" /\ command <> "address" /\
          command <> "merkle" /\ command <> "keygen")).
Proof.
  intros argv key fuel cout Hkey Hargc Hfuel32 Hfuel.
  destruct argv as [|a0 [|command args]].
  - rewrite main_without_command by (simpl; lia).
    eexists; eexists. split; [reflexivity|]. split; [now right|].
    split; [intros _; left; simpl; lia | reflexivity].
  - rewrite main_without_command by (simpl; lia).
    eexists; eexists. split; [reflexivity|]. split; [now right|].
    split; [intros _; left; simpl; lia | reflexivity].
  - rewrite main_command. cbv zeta.
    assert (Hno : ~ length (a0 :: command :: args) < 2) by (simpl; lia).
    destruct (String.eqb_spec command "hash") as [Eh|Nh];
      [|destruct (String.eqb_spec command "address") as [Ea|Na];
        [|destruct (String.eqb_spec command "merkle") as [Em|Nm];
          [|destruct (String.eqb_spec command "keygen") as [Ek|Nk]]]].
    + destruct args as [|message extra].
      * eexists; eexists. split; [reflexivity|]. split; [now right|].
        split; [|reflexivity]. intros _. right. exists command.
        split; [reflexivity|]. left. split; [simpl; lia | now left].
      * eexists; eexists. split; [rewrite append_assoc; reflexivity|].
        split; [now left|]. split; [discriminate|].
        intros [H | (c & Hc & [[H _] | (H & _)])];
          [contradiction | simpl in H; lia | inversion Hc; congruence].
    + destruct args as [|publicKey extra].
      * eexists; eexists. split; [reflexivity|]. split; [now right|].
        split; [|reflexivity]. intros _. right. exists command.
        split; [reflexivity|]. left. split; [simpl; lia | now right; left].
      * destruct (address_text publicKey fuel) as [address Haddr]; [lia|].
        rewrite Haddr. cbn [bind].
        eexists; eexists. split; [rewrite append_assoc; reflexivity|].
        split; [now left|]. split; [discriminate|].
        intros [H | (c & Hc & [[H _] | (_ & H & _)])];
          [contradiction | simpl in H; lia | inversion Hc; congruence].
    + change 2%Z with (Z.of_nat 2).
      rewrite main_data_loop_run by (simpl in *; lia).
      cbn [bind app skipn].
      destruct args as [|item items].
      * eexists; eexists. split; [reflexivity|]. split; [now right|].
        split; [|reflexivity]. intros _. right. exists command.
        split; [reflexivity|]. left. split; [simpl; lia | now right; right].
      * destruct (tree_prints (item :: items) fuel (cout ++ banner ++ endl)%string)
          as (t & out & Ht & Hprint).
        { discriminate. }
        { unfold size, SIZE_MAX. simpl length in *. lia. }
        { simpl length in *. lia. }
        rewrite Ht. cbn [bind]. rewrite Hprint. cbn [bind].
        eexists; eexists. split; [reflexivity|].
        split; [now left|]. split; [discriminate|].
        intros [H | (c & Hc & [[H _] | (_ & _ & H & _)])];
          [contradiction | simpl in H; lia | inversion Hc; congruence].
    + assert (Hgen : generatePrivateKey fuel key = Done (bytesToHex key)).
      { unfold generatePrivateKey. change 0%Z with (Z.of_nat 0).
        rewrite generatePrivateKey_loop_run by (auto; lia).
        now rewrite bytesToHex_prefix. }
      rewrite Hgen. cbn [bind].
      eexists; eexists. split; [rewrite append_assoc; reflexivity|].
      split; [now left|]. split; [discriminate|].
      intros [H | (c & Hc & [[_ [H | [H | H]]] | (_ & _ & _ & H)])];
        try contradiction; inversion Hc; congruence.
    + eexists; eexists. split; [reflexivity|]. split; [now right|].
      split; [|reflexivity]. intros _. right. exists command.
      split; [reflexivity|]. right. now repeat split.
Qed.

(** X15.  The [merkle] command with at least one item builds the tree over
    the items that follow the command, in order, prints it with
    [printTree] after the banner and exits with status 0; the tree is
    never built over an empty item list, for which [main] prints a usage
    line and exits with status 1. *)
Theorem main_merkle_prints_tree :
  forall (a0 item : string) (items : list string) (key : list byte)
         (fuel : nat) (cout : string),
    (Z.of_nat (length (a0 :: "merkle" :: item :: items)) <= 2 ^ 31 - 1)%Z ->
    length (a0 :: "merkle" :: item :: items) <= fuel ->
    (exists (t : MerkleTree) (out : string),
        MerkleTree_new fuel (item :: items) = Done t /\
        printTree fuel t (cout ++ banner ++ endl)%string = Done out /\
        main fuel key (a0 :: "merkle" :: item :: items) cout = Done (0%Z, out)) /\
    main fuel key [a0; "merkle"] cout
    = Done (1%Z,
            (cout ++ banner ++ endl) ++
            "Usage: ./crypto merkle <data1> <data2> ..." ++ endl)%string.
Proof.
  intros a0 item items key fuel cout Hargc Hfuel. split.
  - rewrite main_command. cbv zeta. cbn [String.eqb Ascii.eqb Bool.eqb].
    change 2%Z with (Z.of_nat 2).
    rewrite main_data_loop_run by (simpl in *; lia).
    cbn [bind app skipn].
    destruct (tree_prints (item :: items) fuel (cout ++ banner ++ endl)%string)
      as (t & out & Ht & Hprint).
    { discriminate. }
    { unfold size, SIZE_MAX. simpl length in *. lia. }
    { simpl length in *. lia. }
    exists t. eexists. split; [exact Ht|]. split; [exact Hprint|].
    rewrite Ht. cbn [bind]. rewrite Hprint. reflexivity.
  - rewrite main_command. cbv zeta. cbn [String.eqb Ascii.eqb Bool.eqb].
    destruct fuel; reflexivity.
Qed.

(** ** Level sizes in closed form *)

Lemma reduction_level_sizes (cur : list string) (rest : list (list string)) :
  reduction cur rest ->
  forall (i : nat) (level : list string),
    nth_error (cur :: rest) i = Some level ->
    length level = (length cur + 2 ^ i - 1) / 2 ^ i.
Proof.
  induction 1 as [cur Hle | cur rest Hlt Hred IH]; intros i level Hlevel.
  - destruct i as [|i]; [|destruct i; discriminate].
    inversion Hlevel; subst. change (2 ^ 0) with 1.
    rewrite Nat.div_1_r. lia.
  - destruct i as [|i].
    + inversion Hlevel; subst. change (2 ^ 0) with 1.
      rewrite Nat.div_1_r. lia.
    + simpl in Hlevel. rewrite (IH i level Hlevel).
      pose proof (pairwise_length_bounds cur) as Hb.
      assert (Hpow : 1 <= 2 ^ i) by (apply Nat.neq_0_lt_0, Nat.pow_nonzero; lia).
      rewrite Nat.pow_succ_r', <- Nat.Div0.div_div.
      f_equal.
      apply Nat.div_unique
        with (r := length cur + 1 - 2 * length (pairwise cur)); lia.
Qed.

(** X16.  For every input sequence of [n] items, level [i] of the built
    tree has [ceil(n / 2^i)] nodes. *)
Theorem level_sizes_closed_form :
  forall (data : list string) (fuel : nat),
    (size data < SIZE_MAX)%N ->
    length data <= fuel ->
    exists t : MerkleTree,
      MerkleTree_new fuel data = Done t /\
      forall (i : nat) (level : list string),
        nth_error (levels t) i = Some level ->
        length level = (length data + 2 ^ i - 1) / 2 ^ i.
Proof.
  intros data fuel Hsz Hfuel.
  destruct (MerkleTree_new_run data fuel Hsz Hfuel) as (rest & Hrun & Hred).
  eexists. split; [exact Hrun|]. cbn [levels]. intros i level Hlevel.
  rewrite (reduction_level_sizes _ _ Hred i level Hlevel).
  now rewrite length_map.
Qed.

(** X17.  On the tree built over no items [printTree] does not return a
    text: after the title and the line of the single, empty level it reads
    element 0 of that level, which is out of range. *)
Theorem printTree_empty_input_out_of_range :
  forall (fuel : nat) (cout : string),
    1 <= fuel ->
    exists t : MerkleTree,
      MerkleTree_new fuel [] = Done t /\
      printTree_for fuel (levels t) 0%N
        (cout ++ endl ++ "=== Merkle Tree ===" ++ endl)%string
      = Done ((cout ++ endl ++ "=== Merkle Tree ===" ++ endl) ++
              "Level 0:" ++ endl)%string /\
      printTree fuel t cout = Undefined.
Proof.
  intros fuel cout Hfuel. destruct fuel as [|fuel]; [lia|].
  exists (mkMerkleTree [] [[]]). split; [reflexivity|]. cbn [levels]. split.
  - destruct fuel; reflexivity.
  - unfold printTree. cbn [levels].
    replace (printTree_for (S fuel) [[]] 0%N
               (cout ++ endl ++ "=== Merkle Tree ===" ++ endl)%string)
      with (Done ((cout ++ endl ++ "=== Merkle Tree ===" ++ endl) ++
                  "Level 0:" ++ endl)%string)
      by (destruct fuel; reflexivity).
    reflexivity.
Qed.

End Source.

(** * Runs on concrete data *)

Lemma sample_digest_size (input : string) : length (sample_digest input) = 32.
Proof. unfold sample_digest. now rewrite length_map, length_seq. Qed.

Example put_hex_byte_pads : put_hex_byte x0a = "0a".
Proof. reflexivity. Qed.

Example bytesToHex_sample : bytesToHex [x00; x0a; xff] = "0x000aff".
Proof. reflexivity. Qed.

Example size_sub_wraps : size_sub 5 20 = (2 ^ 64 - 15)%N.
Proof. reflexivity. Qed.

(** With a digest shorter than 20 bytes the start index wraps around, the
    loop guard is false at once and only the prefix is returned. *)
Example publicKeyToAddress_short_digest :
  publicKeyToAddress (fun _ => [x01; x02; x03]) 0 "abc" = Done "0x".
Proof. reflexivity. Qed.

(** One unit of fuel less than the 20 iterations does not reach the end of
    the loop. *)
Example publicKeyToAddress_needs_20 :
  publicKeyToAddress sample_digest 19 "abc" = OutOfFuel.
Proof. vm_compute. reflexivity. Qed.

Example printTree_single_level :
  printTree 1 (mkMerkleTree ["0xab"] [["0xab"]]) ""
  = Done (endl ++ "=== Merkle Tree ===" ++ endl ++
          "Level 0:" ++ endl ++
          "  0xab" ++ endl ++
          endl ++ "Merkle Root: 0xab" ++ endl)%string.
Proof. vm_compute. reflexivity. Qed.

Example getRoot_empty_input :
  (t <- MerkleTree_new sample_digest 0 [] ;; getRoot t) = Undefined.
Proof. reflexivity. Qed.

(** The address derived from a 3-character key with fuel 20. *)
Lemma publicKeyToAddress_last_20_bytes_witness :
  (forall input, length (sample_digest input) = 32) /\
  20 <= 20 /\
  exists head tail : list byte,
    hashToBytes sample_digest "abc" = head ++ tail /\
    length (hashToBytes sample_digest "abc") = 32 /\
    length tail = 20 /\
    publicKeyToAddress sample_digest 20 "abc" = Done (bytesToHex tail) /\
    bytesToHex tail = ("0x" ++ hex_digits tail)%string /\
    String.length (hex_digits tail) = 40 /\
    string_forallb is_lower_hex (hex_digits tail) = true.
Proof.
  split; [exact sample_digest_size|]. split; [apply le_n|].
  apply (publicKeyToAddress_last_20_bytes sample_digest sample_digest_size "abc" 20).
  apply le_n.
Defined.

(** The leaf level of the tree over three items. *)
Lemma leaf_level_hashes_items_witness :
  (size ["a"; "b"; "c"] < SIZE_MAX)%N /\
  length ["a"; "b"; "c"] <= 3 /\
  exists (t : MerkleTree) (level0 : list string),
    MerkleTree_new sample_digest 3 ["a"; "b"; "c"] = Done t /\
    nth_error (levels t) 0 = Some level0 /\
    leaves t = level0 /\
    level0 = map (hash sample_digest) ["a"; "b"; "c"] /\
    length level0 = 3 /\
    forall (i : nat) (item : string),
      nth_error ["a"; "b"; "c"] i = Some item ->
      nth_error level0 i = Some (hash sample_digest item) /\
      hash sample_digest item = bytesToHex (sample_digest item).
Proof.
  split; [reflexivity|]. split; [apply le_n|].
  apply (leaf_level_hashes_items sample_digest ["a"; "b"; "c"] 3);
    [reflexivity | apply le_n].
Defined.

(** The level lengths of the tree over five items: 5, 3, 2, 1. *)
Lemma level_lengths_halve_witness :
  (size ["a"; "b"; "c"; "d"; "e"] < SIZE_MAX)%N /\
  length ["a"; "b"; "c"; "d"; "e"] <= 5 /\
  exists t : MerkleTree,
    MerkleTree_new sample_digest 5 ["a"; "b"; "c"; "d"; "e"] = Done t /\
    (exists level0,
        nth_error (levels t) 0 = Some level0 /\ length level0 = 5) /\
    (forall (i : nat) (a b : list string),
        nth_error (levels t) i = Some a ->
        nth_error (levels t) (S i) = Some b ->
        length b = (length a + 1) / 2 /\
        length a <= 2 * length b <= length a + 1) /\
    (["a"; "b"; "c"; "d"; "e"] <> [] ->
     exists top, back (levels t) = Done top /\ length top = 1).
Proof.
  split; [reflexivity|]. split; [apply le_n|].
  apply (level_lengths_halve sample_digest ["a"; "b"; "c"; "d"; "e"] 5);
    [reflexivity | apply le_n].
Defined.

(** The pair nodes of the tree over four items. *)
Lemma pair_nodes_hash_hex_text_witness :
  (size ["a"; "b"; "c"; "d"] < SIZE_MAX)%N /\
  length ["a"; "b"; "c"; "d"] <= 4 /\
  exists t : MerkleTree,
    MerkleTree_new sample_digest 4 ["a"; "b"; "c"; "d"] = Done t /\
    nth_error (levels t) 0
    = Some (map (hash sample_digest) ["a"; "b"; "c"; "d"]) /\
    forall (i : nat) (level : list string),
      nth_error (levels t) i = Some level ->
      2 <= length level ->
      exists next : list string,
        nth_error (levels t) (S i) = Some next /\
        forall (k : nat) (l r : string),
          nth_error level (2 * k) = Some l ->
          nth_error level (2 * k + 1) = Some r ->
          nth_error next k = Some (hash sample_digest (l ++ r)%string) /\
          exists dl dr : string,
            l = ("0x" ++ hex_digits (sample_digest dl))%string /\
            r = ("0x" ++ hex_digits (sample_digest dr))%string /\
            string_forallb is_lower_hex (hex_digits (sample_digest dl)) = true /\
            string_forallb is_lower_hex (hex_digits (sample_digest dr)) = true /\
            nth_error next k =
            Some (bytesToHex
                    (sample_digest
                       (("0x" ++ hex_digits (sample_digest dl)) ++
                        ("0x" ++ hex_digits (sample_digest dr)))%string)).
Proof.
  split; [reflexivity|]. split; [apply le_n|].
  apply (pair_nodes_hash_hex_text sample_digest ["a"; "b"; "c"; "d"] 4);
    [reflexivity | apply le_n].
Defined.

(** The tree over three items: the third leaf is paired with itself. *)
Lemma odd_level_duplicates_last_witness :
  (size ["a"; "b"; "c"] < SIZE_MAX)%N /\
  length ["a"; "b"; "c"] <= 3 /\
  exists t : MerkleTree,
    MerkleTree_new sample_digest 3 ["a"; "b"; "c"] = Done t /\
    levels t =
      [[hash sample_digest "a"; hash sample_digest "b"; hash sample_digest "c"];
       [hash sample_digest (hash sample_digest "a" ++ hash sample_digest "b")%string;
        hash sample_digest (hash sample_digest "c" ++ hash sample_digest "c")%string];
       [hash sample_digest
          (hash sample_digest (hash sample_digest "a" ++ hash sample_digest "b") ++
           hash sample_digest (hash sample_digest "c" ++ hash sample_digest "c"))%string]].
Proof.
  split; [reflexivity|]. split; [apply le_n|].
  destruct (odd_level_duplicates_last sample_digest ["a"; "b"; "c"] 3)
    as (t & Hrun & _ & Hthree); [reflexivity | apply le_n |].
  exists t. split; [exact Hrun|].
  exact (proj1 (Hthree "a" "b" "c" eq_refl)).
Defined.

(** The construction over five items returns the same tree for every fuel
    from 5 on. *)
Lemma buildTree_terminates_witness :
  (size ["a"; "b"; "c"; "d"; "e"] < SIZE_MAX)%N /\
  exists t : MerkleTree,
    (forall fuel,
        5 <= fuel ->
        MerkleTree_new sample_digest fuel ["a"; "b"; "c"; "d"; "e"] = Done t) /\
    (exists top, back (levels t) = Done top /\ length top <= 1).
Proof.
  split; [reflexivity|].
  destruct (buildTree_terminates sample_digest ["a"; "b"; "c"; "d"; "e"])
    as (t & Hrun & (top & Hback & Hlen & _) & _); [reflexivity|].
  exists t. split; [exact Hrun|]. exists top. split; assumption.
Defined.

(** [getRoot] on the tree over three items. *)
Lemma getRoot_bounds_witness :
  (size ["a"; "b"; "c"] < SIZE_MAX)%N /\
  length ["a"; "b"; "c"] <= 3 /\
  exists (t : MerkleTree) (root : string),
    MerkleTree_new sample_digest 3 ["a"; "b"; "c"] = Done t /\
    getRoot t = Done root.
Proof.
  split; [reflexivity|]. split; [apply le_n|].
  destruct (getRoot_bounds sample_digest ["a"; "b"; "c"] 3)
    as (t & Hrun & Hroot & _); [reflexivity | apply le_n |].
  destruct Hroot as (top & root & _ & _ & _ & _ & Hget); [discriminate|].
  exists t, root. split; assumption.
Defined.



(** * Further runs on concrete data *)

Lemma tree_nodes_are_digest_texts_witness :
  (forall input, length (sample_digest input) = 32) /\
  (size ["a"; "b"; "c"] < SIZE_MAX)%N /\
  length ["a"; "b"; "c"] <= 3 /\
  exists t : MerkleTree,
    MerkleTree_new sample_digest 3 ["a"; "b"; "c"] = Done t /\
    forall (level : list string) (node : string),
      In level (levels t) -> In node level -> String.length node = 66.
Proof.
  split; [exact sample_digest_size|]. split; [reflexivity|].
  split; [apply le_n|].
  destruct (tree_nodes_are_digest_texts sample_digest sample_digest_size
              ["a"; "b"; "c"] 3) as (t & Hrun & Hnodes);
    [reflexivity | apply le_n |].
  exists t. split; [exact Hrun|].
  intros level node Hl Hn. exact (proj1 (Hnodes level node Hl Hn)).
Defined.

Lemma publicKeyToAddress_any_digest_size_witness :
  (size (hashToBytes (fun _ => [x01; x02; x03]) "abc") < 2 ^ 64)%N /\
  20 <= 20 /\
  publicKeyToAddress (fun _ => [x01; x02; x03]) 20 "abc" = Done "0x".
Proof.
  split; [reflexivity|]. split; [apply le_n|].
  apply (publicKeyToAddress_any_digest_size
           (fun _ => [x01; x02; x03]) "abc" 20); [reflexivity | apply le_n |].
  simpl. repeat constructor.
Defined.

Lemma address_is_tail_of_hash_witness :
  (forall input, length (sample_digest input) = 32) /\
  20 <= 20 /\
  exists head tail : string,
    hash sample_digest "abc" = ("0x" ++ head ++ tail)%string /\
    publicKeyToAddress sample_digest 20 "abc" = Done ("0x" ++ tail)%string /\
    String.length head = 24 /\
    String.length tail = 40.
Proof.
  split; [exact sample_digest_size|]. split; [apply le_n|].
  apply (address_is_tail_of_hash sample_digest sample_digest_size "abc" 20).
  apply le_n.
Defined.

Lemma generatePrivateKey_format_witness :
  length (sample_digest "seed") = 32 /\
  32 <= 32 /\
  generatePrivateKey 32 (sample_digest "seed")
  = Done (bytesToHex (sample_digest "seed")).
Proof.
  split; [reflexivity|]. split; [apply le_n|].
  apply (generatePrivateKey_format (sample_digest "seed") 32);
    [reflexivity | apply le_n].
Defined.

Lemma level_count_is_logarithmic_witness :
  (size ["a"; "b"; "c"; "d"; "e"] < SIZE_MAX)%N /\
  length ["a"; "b"; "c"; "d"; "e"] <= 5 /\
  exists t : MerkleTree,
    MerkleTree_new sample_digest 5 ["a"; "b"; "c"; "d"; "e"] = Done t /\
    length (levels t) = 4.
Proof.
  split; [reflexivity|]. split; [apply le_n|].
  apply (level_count_is_logarithmic sample_digest ["a"; "b"; "c"; "d"; "e"] 5);
    [reflexivity | apply le_n].
Defined.

Lemma stored_nodes_are_linear_witness :
  (size ["a"; "b"; "c"; "d"; "e"] < SIZE_MAX)%N /\
  length ["a"; "b"; "c"; "d"; "e"] <= 5 /\
  exists t : MerkleTree,
    MerkleTree_new sample_digest 5 ["a"; "b"; "c"; "d"; "e"] = Done t /\
    list_sum (map (@length string) (levels t)) <= 13.
Proof.
  split; [reflexivity|]. split; [apply le_n|].
  apply (stored_nodes_are_linear sample_digest ["a"; "b"; "c"; "d"; "e"] 5);
    [reflexivity | apply le_n].
Defined.

Lemma repeated_last_item_same_root_witness :
  length ["a"; "b"] = 2 * 1 /\
  1 <= 1 /\
  (size (["a"; "b"] ++ ["c"; "c"]) < SIZE_MAX)%N /\
  length (["a"; "b"] ++ ["c"; "c"]) <= 4 /\
  exists t t' : MerkleTree,
    MerkleTree_new sample_digest 4 ["a"; "b"; "c"] = Done t /\
    MerkleTree_new sample_digest 4 ["a"; "b"; "c"; "c"] = Done t' /\
    length (leaves t') = S (length (leaves t)) /\
    tl (levels t) = tl (levels t') /\
    getRoot t = getRoot t'.
Proof.
  split; [reflexivity|]. split; [apply le_n|]. split; [reflexivity|].
  split; [apply le_n|].
  apply (repeated_last_item_same_root sample_digest ["a"; "b"] "c" 1 4);
    [reflexivity | apply le_n | reflexivity | apply le_n].
Defined.

Lemma inner_level_as_leaves_witness :
  2 <= length ["a"; "b"; "c"] /\
  (size ["a"; "b"; "c"] < SIZE_MAX)%N /\
  length ["a"; "b"; "c"] <= 3 /\
  exists t t' : MerkleTree,
    MerkleTree_new sample_digest 3 ["a"; "b"; "c"] = Done t /\
    MerkleTree_new sample_digest 3 (combined (leaves t)) = Done t' /\
    length (combined (leaves t)) < 3 /\
    levels t' = tl (levels t) /\
    getRoot t' = getRoot t.
Proof.
  split; [repeat constructor|]. split; [reflexivity|]. split; [apply le_n|].
  apply (inner_level_as_leaves sample_digest ["a"; "b"; "c"] 3);
    [repeat constructor | reflexivity | apply le_n].
Defined.

Lemma buildTree_twice_repeats_levels_witness :
  (size ["a"; "b"] < SIZE_MAX)%N /\
  length ["a"; "b"] <= 2 /\
  exists t t' : MerkleTree,
    MerkleTree_new sample_digest 2 ["a"; "b"] = Done t /\
    buildTree sample_digest 2 t = Done t' /\
    nth_error (levels t) 0 = Some (map (hash sample_digest) ["a"; "b"]) /\
    1 <= length (levels t) /\
    leaves t' = leaves t /\
    levels t' = levels t ++ levels t /\
    length (levels t') = 2 * length (levels t) /\
    levels t' <> levels t /\
    t' <> t.
Proof.
  split; [reflexivity|]. split; [apply le_n|].
  apply (buildTree_twice_repeats_levels sample_digest ["a"; "b"] 2);
    [reflexivity | apply le_n].
Defined.


Lemma printTree_lists_levels_then_root_witness :
  ["a"; "b"] <> [] /\
  (size ["a"; "b"] < SIZE_MAX)%N /\
  length ["a"; "b"] <= 2 /\
  exists (t : MerkleTree) (root : string),
    MerkleTree_new sample_digest 2 ["a"; "b"] = Done t /\
    getRoot t = Done root /\
    forall cout : string,
      printTree 2 t cout
      = Done (cout ++ endl ++ "=== Merkle Tree ===" ++ endl ++
              render_levels 0 (levels t) ++
              endl ++ "Merkle Root: " ++ root ++ endl)%string.
Proof.
  split; [discriminate|]. split; [reflexivity|]. split; [apply le_n|].
  apply (printTree_lists_levels_then_root sample_digest ["a"; "b"] 2);
    [discriminate | reflexivity | apply le_n].
Defined.

Lemma main_exit_status_witness :
  (forall input, length (sample_digest input) = 32) /\
  length (sample_digest "seed") = 32 /\
  (Z.of_nat (length ["./crypto"; "address"; "04ab"]) <= 2 ^ 31 - 1)%Z /\
  32 <= 32 /\
  length ["./crypto"; "address"; "04ab"] <= 32 /\
  exists (status : Z) (text : string),
    main sample_digest 32 (sample_digest "seed")
      ["./crypto"; "address"; "04ab"] ""
    = Done (status, (("" ++ banner ++ endl) ++ text)%string) /\
    (status = 0%Z \/ status = 1%Z).
Proof.
  split; [exact sample_digest_size|]. split; [reflexivity|].
  split; [discriminate|]. split; [apply le_n|].
  split; [repeat constructor|].
  destruct (main_exit_status sample_digest sample_digest_size
              ["./crypto"; "address"; "04ab"] (sample_digest "seed") 32 "")
    as (status & text & Hrun & Hstatus & _).
  - reflexivity.
  - discriminate.
  - apply le_n.
  - repeat constructor.
  - exists status, text. split; assumption.
Defined.

Lemma main_merkle_prints_tree_witness :
  (Z.of_nat (length ["./crypto"; "merkle"; "a"; "b"]) <= 2 ^ 31 - 1)%Z /\
  length ["./crypto"; "merkle"; "a"; "b"] <= 4 /\
  exists (t : MerkleTree) (out : string),
    MerkleTree_new sample_digest 4 ["a"; "b"] = Done t /\
    printTree 4 t ("" ++ banner ++ endl)%string = Done out /\
    main sample_digest 4 [] ["./crypto"; "merkle"; "a"; "b"] "" = Done (0%Z, out).
Proof.
  split; [discriminate|]. split; [apply le_n|].
  apply (main_merkle_prints_tree sample_digest "./crypto" "a" ["b"] [] 4 "");
    [discriminate | apply le_n].
Defined.

Lemma level_sizes_closed_form_witness :
  (size ["a"; "b"; "c"; "d"; "e"] < SIZE_MAX)%N /\
  length ["a"; "b"; "c"; "d"; "e"] <= 5 /\
  exists t : MerkleTree,
    MerkleTree_new sample_digest 5 ["a"; "b"; "c"; "d"; "e"] = Done t /\
    forall (i : nat) (level : list string),
      nth_error (levels t) i = Some level ->
      length level = (5 + 2 ^ i - 1) / 2 ^ i.
Proof.
  split; [reflexivity|]. split; [apply le_n|].
  apply (level_sizes_closed_form sample_digest ["a"; "b"; "c"; "d"; "e"] 5);
    [reflexivity | apply le_n].
Defined.

Lemma printTree_empty_input_out_of_range_witness :
  1 <= 1 /\
  exists t : MerkleTree,
    MerkleTree_new sample_digest 1 [] = Done t /\
    printTree 1 t "" = Undefined.
Proof.
  split; [apply le_n|].
  destruct (printTree_empty_input_out_of_range sample_digest 1 "")
    as (t & Hrun & _ & Hprint); [apply le_n|].
  exists t. split; assumption.
Defined.

Lemma bytesToHex_injective_witness :
  bytesToHex [x01; xff] = bytesToHex [x01; xff] /\ [x01; xff] = [x01; xff].
Proof.
  split; [reflexivity|].
  apply (bytesToHex_injective [x01; xff] [x01; xff]). reflexivity.
Defined.

Example main_no_arguments :
  main sample_digest 0 [] ["./crypto"] ""
  = Done (1%Z, banner ++ endl ++ usage ++ endl)%string.
Proof. reflexivity. Qed.

Example main_unknown_command :
  main sample_digest 0 [] ["./crypto"; "sign"; "x"] ""
  = Done (1%Z, banner ++ endl ++ "Unknown command: sign" ++ endl)%string.
Proof. reflexivity. Qed.

Example main_hash_ignores_further_arguments :
  main sample_digest 0 [] ["./crypto"; "hash"; "abc"; "def"] ""
  = main sample_digest 0 [] ["./crypto"; "hash"; "abc"] "".
Proof. reflexivity. Qed.

Example main_keygen_without_fuel :
  main sample_digest 31 (sample_digest "seed") ["./crypto"; "keygen"] ""
  = OutOfFuel.
Proof. vm_compute. reflexivity. Qed.
